(** * celestia-node-stateless: the block reassembler, the square extension
      and the command line of [cmd/celestia/main.go]

    The program is glue around its dependencies.  The functions of
    [main.go] are embedded as they are written; what they call in the
    consensus library (the part set), in the square libraries and in the
    erasure coding library is embedded after those libraries where a
    property depends on it, and taken as an operation of a collaborator
    class where it is opaque to the program (protobuf decoding, the
    Reed-Solomon codec, the tree hashing, the network). *)

From Stdlib Require Import ZArith Lia Ascii String.
From stdpp Require Import base list numbers.

Local Open Scope Z_scope.

(** ** Go values *)

(** [[]byte]. *)
Definition bytes := list Byte.byte.

(** The [error] values the program can see.  The first is the part set's,
    the second is the one [extendShares] formats itself, [EOF] is what a
    stream returns once the server has closed it; every other error of a
    dependency is carried with its message. *)
Inductive error : Type :=
| ErrPartSetUnexpectedIndex
| ErrNotPowerOfTwo (got : Z)
| EOF
| ErrDependency (msg : string).

(** Run-time panics of the Go runtime and of the dependencies. *)
Inductive panic : Type :=
| NilDereference
| IndexOutOfRange (index len : Z)
| SliceBoundsOutOfRange (bound cap : Z)
| PanicMessage (msg : string).

(** A computation that returns or panics. *)
Inductive run (A : Type) : Type :=
| Done (a : A)
| Panicked (p : panic).
Arguments Done {A} a.
Arguments Panicked {A} p.

Definition run_bind {A B} (m : run A) (k : A -> run B) : run B :=
  match m with
  | Done a => k a
  | Panicked p => Panicked p
  end.

Declare Scope run_scope.
Delimit Scope run_scope with run.
Notation "x <- m ;; k" := (run_bind m (fun x => k))
  (at level 100, m at next level, right associativity) : run_scope.

(** The exit of a loop body: [return] from the function, or fall through
    with the loop's state. *)
Inductive flow (R S : Type) : Type :=
| Return (r : R)
| Next (s : S).
Arguments Return {R S} r.
Arguments Next {R S} s.

(** A Go result pair, a pointer and an [error]: each half may be [nil]. *)
Definition goret (T : Type) : Type := (option T * option error)%type.

Definition ok {T} (t : T) : goret T := (Some t, None).
Definition fail {T} (e : error) : goret T := (None, Some e).

(** What a dependency that is opaque to the program returns: a value, or
    an error of its own with its message. *)
Definition of_sum {T} (r : string + T) : goret T :=
  match r with
  | inl msg => fail (ErrDependency msg)
  | inr t => ok t
  end.

(** [uint32(n)] of a non-negative [int]. *)
Definition uint32 (n : Z) : Z := n mod 2 ^ 32.

(** ** Wire types and the part set *)

(** [tmproto.Part]: the declared index, a [uint32], and the payload (the
    proof is not read by the program). *)
Record Part : Type := mkPart {
  Index : Z;
  Bytes : bytes
}.

(** The part set of the consensus library (package [types] of the
    tendermint dependency, [part_set.go]): a slice of [Total] slots, one
    per declared index, with the number of filled slots. *)
Record PartSet : Type := mkPartSet {
  total : Z;
  parts : list (option Part);
  count : Z;
  byteSize : Z
}.

Definition NewPartSetFromHeader (Total : Z) : PartSet :=
  {| total := Total;
     parts := replicate (Z.to_nat Total) None;
     count := 0;
     byteSize := 0 |}.

(** [AddPartWithoutProof]: an index beyond [total] is an error, a slot
    already filled is refused without an error, otherwise the part is
    stored at its declared index. *)
Definition AddPartWithoutProof (ps : PartSet) (part : Part)
  : (bool * option error) * PartSet :=
  if Z.leb (total ps) (Index part) then
    ((false, Some ErrPartSetUnexpectedIndex), ps)
  else
    match parts ps !! Z.to_nat (Index part) with
    | Some (Some _) => ((false, None), ps)
    | _ =>
        ((true, None),
         {| total := total ps;
            parts := <[Z.to_nat (Index part) := Some part]> (parts ps);
            count := count ps + 1;
            byteSize := byteSize ps + Z.of_nat (length (Bytes part)) |})
    end.

Definition IsComplete (ps : PartSet) : bool := Z.eqb (count ps) (total ps).

(** What [io.ReadAll] reads from the part set reader: the payload of
    every slot, in slot order. *)
Fixpoint readSlots (slots : list (option Part)) : run bytes :=
  match slots with
  | [] => Done []
  | None :: _ => Panicked NilDereference
  | Some p :: rest =>
      match readSlots rest with
      | Done bz => Done (Bytes p ++ bz)
      | Panicked q => Panicked q
      end
  end.

(** [io.ReadAll(partSet.GetReader())]: [GetReader] panics on an
    incomplete set, and the reader is created on slot 0. *)
Definition ReadAll_GetReader (ps : PartSet) : run bytes :=
  if IsComplete ps then
    match parts ps with
    | [] => Panicked (IndexOutOfRange 0 0)
    | _ => readSlots (parts ps)
    end
  else Panicked (PanicMessage "Cannot GetReader() on incomplete PartSet").

(** ** The block reassembler *)

(** The structural decoders of the consensus library and of protobuf, and
    the Go types they produce.  The program never looks inside them,
    except for the header and the data of a block. *)
Class Decoders : Type := {
  tmproto_Commit : Type;
  tmproto_ValidatorSet : Type;
  tmproto_Block : Type;
  types_Commit : Type;
  types_ValidatorSet : Type;
  types_Header : Type;
  types_Data : Type;
  types_Block : Type;
  block_Header : types_Block -> types_Header;
  block_Data : types_Block -> types_Data;
  CommitFromProto : option tmproto_Commit -> string + types_Commit;
  ValidatorSetFromProto : option tmproto_ValidatorSet -> string + types_ValidatorSet;
  proto_Unmarshal : bytes -> string + tmproto_Block;
  BlockFromProto : tmproto_Block -> string + types_Block
}.

Section Reassembler.
Context `{Dec : Decoders}.
Local Open Scope run_scope.

(** [coregrpc.BlockByHeightResponse]: the fragment, the commit and the
    validator set it may carry, and the flag of the last fragment. *)
Record BlockByHeightResponse : Type := mkResponse {
  BlockPart : option Part;
  resp_Commit : option tmproto_Commit;
  resp_ValidatorSet : option tmproto_ValidatorSet;
  IsLast : bool
}.

(** The client side of the stream: the responses the server still has to
    deliver, and the error [Recv] returns once they are consumed ([EOF]
    when the server closed the stream, the transport's error otherwise). *)
Record Stream : Type := mkStream {
  pending : list BlockByHeightResponse;
  closing : error
}.

Definition Recv (st : Stream) : goret BlockByHeightResponse * Stream :=
  match pending st with
  | resp :: rest => (ok resp, {| pending := rest; closing := closing st |})
  | [] => (fail (closing st), st)
  end.

Record SignedBlock : Type := mkSignedBlock {
  sb_Header : types_Header;
  sb_Commit : types_Commit;
  sb_Data : types_Data;
  sb_ValidatorSet : types_ValidatorSet
}.

(** The [for _, part := range parts] loop of [partsToBlock]. *)
Fixpoint addParts (ps : list (option Part)) (partSet : PartSet)
  : run (flow (goret types_Block) PartSet) :=
  match ps with
  | [] => Done (Next partSet)
  | None :: _ => Panicked NilDereference
  | Some part :: rest =>
      let '((ok_, err), partSet') :=
        AddPartWithoutProof partSet {| Index := Index part; Bytes := Bytes part |} in
      match err with
      | Some e => Done (Return (None, Some e))
      | None =>
          if negb ok_ then Done (Return (None, err))
          else addParts rest partSet'
      end
  end.

(** The buffer [bz] of [partsToBlock]: the part set is made for as many
    parts as were received, filled from them and read back ([io.ReadAll]
    has no error to return on this reader). *)
Definition partsToBlock_bz (ps : list (option Part))
  : run (flow (goret types_Block) bytes) :=
  let partSet := NewPartSetFromHeader (uint32 (Z.of_nat (length ps))) in
  r <- addParts ps partSet ;;
  match r with
  | Return out => Done (Return out)
  | Next partSet =>
      bz <- ReadAll_GetReader partSet ;;
      Done (Next bz)
  end.

(** [proto.Unmarshal] followed by [types.BlockFromProto]. *)
Definition decodeBlock (bz : bytes) : goret types_Block :=
  match proto_Unmarshal bz with
  | inl msg => (None, Some (ErrDependency msg))
  | inr pbb =>
      match BlockFromProto pbb with
      | inl msg => (None, Some (ErrDependency msg))
      | inr block => (Some block, None)
      end
  end.

Definition partsToBlock (ps : list (option Part)) : run (goret types_Block) :=
  r <- partsToBlock_bz ps ;;
  match r with
  | Return out => Done out
  | Next bz => Done (decodeBlock bz)
  end.

(** The [for !isLast] loop of [receiveBlockByHeight], entered with
    [isLast = false]: it returns the stream's error, or falls through
    with every part received. *)
Fixpoint receiveRest (closing_ : error) (todo : list BlockByHeightResponse)
    (ps : list (option Part))
  : flow (goret SignedBlock) (list (option Part)) * Stream :=
  match todo with
  | [] => (Return (None, Some closing_), {| pending := []; closing := closing_ |})
  | resp :: rest =>
      let ps' := ps ++ [BlockPart resp] in
      if IsLast resp then (Next ps', {| pending := rest; closing := closing_ |})
      else receiveRest closing_ rest ps'
  end.

Definition receiveBlockByHeight (streamer : Stream)
  : run (goret SignedBlock) * Stream :=
  let '((firstPart, err), streamer) := Recv streamer in
  match err, firstPart with
  | Some e, _ => (Done (None, Some e), streamer)
  | None, None => (Panicked NilDereference, streamer)
  | None, Some firstPart =>
      match CommitFromProto (resp_Commit firstPart) with
      | inl msg => (Done (None, Some (ErrDependency msg)), streamer)
      | inr commit =>
          match ValidatorSetFromProto (resp_ValidatorSet firstPart) with
          | inl msg => (Done (None, Some (ErrDependency msg)), streamer)
          | inr validatorSet =>
              let ps := [] ++ [BlockPart firstPart] in
              let '(rest, streamer) :=
                if IsLast firstPart then (Next ps, streamer)
                else receiveRest (closing streamer) (pending streamer) ps in
              match rest with
              | Return out => (Done out, streamer)
              | Next ps =>
                  (r <- partsToBlock ps ;;
                   match r with
                   | (_, Some e) => Done (None, Some e)
                   | (None, None) => Panicked NilDereference
                   | (Some block, None) =>
                       Done (Some {| sb_Header := block_Header block;
                                     sb_Commit := commit;
                                     sb_Data := block_Data block;
                                     sb_ValidatorSet := validatorSet |}, None)
                   end, streamer)
              end
          end
      end
  end.

(** The responses a call consumes when one of them is marked last: those
    up to and including the first so marked, and what is left of the
    stream. *)
Fixpoint untilLast (rs : list BlockByHeightResponse)
  : option (list BlockByHeightResponse * list BlockByHeightResponse) :=
  match rs with
  | [] => None
  | r :: rest =>
      if IsLast r then Some ([r], rest)
      else match untilLast rest with
           | Some (consumed, remaining) => Some (r :: consumed, remaining)
           | None => None
           end
  end.

(** What [receiveBlockByHeight] makes of the result of [partsToBlock]. *)
Definition signBlock (commit : types_Commit) (validatorSet : types_ValidatorSet)
    (r : run (goret types_Block)) : run (goret SignedBlock) :=
  r <- r ;;
  match r with
  | (_, Some e) => Done (None, Some e)
  | (None, None) => Panicked NilDereference
  | (Some block, None) =>
      Done (Some {| sb_Header := block_Header block;
                    sb_Commit := commit;
                    sb_Data := block_Data block;
                    sb_ValidatorSet := validatorSet |}, None)
  end.

End Reassembler.

(** A sample of decoders to run the reassembler on: payloads are byte
    strings, a missing commit or validator set does not decode (as in the
    consensus library), everything else decodes to itself. *)
Module Sample.

Definition decodeField (what : string) (o : option bytes) : string + bytes :=
  match o with
  | None => inl what
  | Some bz => inr bz
  end.

#[export] Instance decoders : Decoders := {|
  tmproto_Commit := bytes;
  tmproto_ValidatorSet := bytes;
  tmproto_Block := bytes;
  types_Commit := bytes;
  types_ValidatorSet := bytes;
  types_Header := bytes;
  types_Data := bytes;
  types_Block := bytes;
  block_Header := fun b => take 1 b;
  block_Data := fun b => drop 1 b;
  CommitFromProto := decodeField "nil Commit";
  ValidatorSetFromProto := decodeField "nil validator set";
  proto_Unmarshal := fun bz => inr bz;
  BlockFromProto := fun pbb => inr pbb
|}.

Definition fragment (i : Z) (bz : bytes) (last : bool) : BlockByHeightResponse :=
  {| BlockPart := Some {| Index := i; Bytes := bz |};
     resp_Commit := None; resp_ValidatorSet := None; IsLast := last |}.

Definition firstFragment (i : Z) (bz : bytes) (last : bool) : BlockByHeightResponse :=
  {| BlockPart := Some {| Index := i; Bytes := bz |};
     resp_Commit := Some [Byte.x0c]; resp_ValidatorSet := Some [Byte.x0f];
     IsLast := last |}.

(** Three fragments delivered out of the order of their indices, and a
    fourth response that is left unread. *)
Definition shuffled : Stream :=
  {| pending := [firstFragment 1 [Byte.x01] false;
                 fragment 0 [Byte.x00] false;
                 fragment 2 [Byte.x02] true;
                 fragment 3 [Byte.x03] true];
     closing := EOF |}.

(** Two fragments of three, none marked last, then the end of the stream. *)
Definition truncated : Stream :=
  {| pending := [firstFragment 0 [Byte.x00] false;
                 fragment 1 [Byte.x01] false];
     closing := EOF |}.

(** A first response without a commit, followed by a good fragment. *)
Definition headless : Stream :=
  {| pending := [fragment 0 [Byte.x00] false;
                 fragment 1 [Byte.x01] true];
     closing := EOF |}.

End Sample.

(** ** The data square and its extension *)

(** [libsquare.IsPowerOfTwo] (go-square): [input&(input-1) == 0 &&
    input != 0]. *)
Definition IsPowerOfTwo (input : Z) : bool :=
  Z.eqb (Z.land input (input - 1)) 0 && negb (Z.eqb input 0).

(** [rsmt2d.Codec], the part of it the extension uses.  [Encode] returns
    the parity shares of a row or a column. *)
Record Codec : Type := mkCodec {
  Encode : list bytes -> string + list bytes;
  MaxChunks : Z;
  ValidateChunkSize : Z -> option string
}.

(** The square of the erasure coding library (rsmt2d, [datasquare.go] and
    [extendeddatasquare.go]): the cells by row, the width, the size of a
    share, the width before the extension and the tree constructor the
    roots are computed with.  The library keeps the cells by column as
    well, the mirror of the rows, and the roots once computed.  A share
    is a slice that is not [nil]. *)
Record ExtendedDataSquare (Tree : Type) : Type := mkEDS {
  squareRow : list (list bytes);
  width : nat;
  chunkSize : nat;
  originalDataWidth : nat;
  createTreeFn : Tree
}.
Arguments mkEDS {Tree}.
Arguments squareRow {Tree}.
Arguments width {Tree}.
Arguments chunkSize {Tree}.
Arguments originalDataWidth {Tree}.
Arguments createTreeFn {Tree}.

(** The cell of a square at a row and a column, if there is one, and the
    squares of a given width. *)
Definition cellAt (sq : list (list bytes)) (r c : nat) : option bytes :=
  sq !! r ≫= fun row => row !! c.

Definition isSquare (n : nat) (sq : list (list bytes)) : Prop :=
  length sq = n /\ Forall (fun row => length row = n) sq.

Section Rsmt2d.
Context {Tree : Type}.
Local Open Scope run_scope.
#[local] Abbreviation EDS := (ExtendedDataSquare Tree).

(** [int(math.Ceil(math.Sqrt(float64(n))))], on the integers. *)
Definition ceilSqrt (n : Z) : Z :=
  let r := Z.sqrt n in
  if Z.eqb (r * r) n then r else r + 1.

(** The rows of a flat list of [w * w] shares. *)
Fixpoint rowsOf (w : nat) (n : nat) (data : list bytes) : list (list bytes) :=
  match n with
  | O => []
  | S n' => take w data :: rowsOf w n' (drop w data)
  end.

Definition newDataSquare (data : list bytes) (treeCreator : Tree) (chunkSize_ : nat)
  : string + EDS :=
  let w := ceilSqrt (Z.of_nat (length data)) in
  if negb (Z.eqb (w * w) (Z.of_nat (length data))) then
    inl "number of chunks must be a square number"%string
  else if negb (forallb (fun d => Nat.eqb (length d) chunkSize_) data) then
    inl "non-nil chunks must be of equal size"%string
  else
    inr {| squareRow := rowsOf (Z.to_nat w) (Z.to_nat w) data;
           width := Z.to_nat w;
           chunkSize := chunkSize_;
           originalDataWidth := 0;
           createTreeFn := treeCreator |}.

(** [squareRow[x][y] = v]. *)
Definition setCell (sq : list (list bytes)) (x y : nat) (v : bytes)
  : list (list bytes) :=
  alter (fun row => <[y := v]> row) x sq.

(** The assignments of [setRowSlice] and of [setColSlice]. *)
Fixpoint writeRow (sq : list (list bytes)) (x y : nat) (newRow : list bytes)
  : list (list bytes) :=
  match newRow with
  | [] => sq
  | v :: rest => writeRow (setCell sq x y v) x (S y) rest
  end.

Fixpoint writeCol (sq : list (list bytes)) (x y : nat) (newCol : list bytes)
  : list (list bytes) :=
  match newCol with
  | [] => sq
  | v :: rest => writeCol (setCell sq x y v) (S x) y rest
  end.

Definition withRows (ds : EDS) (sq : list (list bytes)) : EDS :=
  {| squareRow := sq;
     width := width ds;
     chunkSize := chunkSize ds;
     originalDataWidth := originalDataWidth ds;
     createTreeFn := createTreeFn ds |}.

Definition uneven (ds : EDS) (cells : list bytes) : bool :=
  negb (forallb (fun c => Nat.eqb (length c) (chunkSize ds)) cells).

Definition setRowSlice (ds : EDS) (x y : nat) (newRow : list bytes) : string + EDS :=
  if uneven ds newRow then inl "non-nil chunks must be of equal size"%string
  else inr (withRows ds (writeRow (squareRow ds) x y newRow)).

Definition setColSlice (ds : EDS) (x y : nat) (newCol : list bytes) : string + EDS :=
  if uneven ds newCol then inl "non-nil chunks must be of equal size"%string
  else inr (withRows ds (writeCol (squareRow ds) x y newCol)).

(** [squareRow[x][y : y+length]] and the same on a column. *)
Definition rowSlice (ds : EDS) (x y len : nat) : list bytes :=
  take len (drop y (default [] (squareRow ds !! x))).

Definition colSlice (ds : EDS) (x y len : nat) : list bytes :=
  (fun row => default [] (row !! y)) <$> take len (drop x (squareRow ds)).

(** [extendSquare]: the square grows by [extendedWidth] rows and columns
    of the filler share. *)
Definition extendSquare (ds : EDS) (extendedWidth : nat) (fillerChunk : bytes)
  : string + EDS :=
  if negb (Nat.eqb (length fillerChunk) (chunkSize ds)) then
    inl "filler chunk size does not match data square chunk size"%string
  else
    let newWidth := (width ds + extendedWidth)%nat in
    inr {| squareRow :=
             ((fun row => row ++ replicate extendedWidth fillerChunk) <$> squareRow ds)
             ++ replicate extendedWidth (replicate newWidth fillerChunk);
           width := newWidth;
           chunkSize := chunkSize ds;
           originalDataWidth := originalDataWidth ds;
           createTreeFn := createTreeFn ds |}.

(** [parityShares[:originalDataWidth]]. *)
Definition firstShares (k : nat) (shares : list bytes) : run (list bytes) :=
  if Nat.ltb (length shares) k then
    Panicked (SliceBoundsOutOfRange (Z.of_nat k) (Z.of_nat (length shares)))
  else Done (take k shares).

Definition erasureExtendRow (codec : Codec) (eds : EDS) (i : nat)
  : run (string + EDS) :=
  match Encode codec (rowSlice eds i 0 (originalDataWidth eds)) with
  | inl msg => Done (inl msg)
  | inr parityShares =>
      shares <- firstShares (originalDataWidth eds) parityShares ;;
      Done (setRowSlice eds i (originalDataWidth eds) shares)
  end.

Definition erasureExtendCol (codec : Codec) (eds : EDS) (i : nat)
  : run (string + EDS) :=
  match Encode codec (colSlice eds 0 i (originalDataWidth eds)) with
  | inl msg => Done (inl msg)
  | inr parityShares =>
      shares <- firstShares (originalDataWidth eds) parityShares ;;
      Done (setColSlice eds (originalDataWidth eds) i shares)
  end.

(** One loop of [erasureExtendSquare] over the indices [idxs], with the
    body [step]; the first error ends it.  The library runs the turns of
    a loop in an error group, on cells that do not overlap; they are taken
    here in the order of the indices. *)
Fixpoint extendEach (step : EDS -> nat -> run (string + EDS)) (eds : EDS)
    (idxs : list nat) : run (string + EDS) :=
  match idxs with
  | [] => Done (inr eds)
  | i :: rest =>
      r <- step eds i ;;
      match r with
      | inl msg => Done (inl msg)
      | inr eds' => extendEach step eds' rest
      end
  end.

Definition erasureExtendSquare (codec : Codec) (eds : EDS) : run (string + EDS) :=
  let eds :=
    {| squareRow := squareRow eds;
       width := width eds;
       chunkSize := chunkSize eds;
       originalDataWidth := width eds;
       createTreeFn := createTreeFn eds |} in
  match extendSquare eds (width eds) (replicate (chunkSize eds) Byte.x00) with
  | inl msg => Done (inl msg)
  | inr eds =>
      (* the rows and the columns of the original quadrant *)
      r <- extendEach
             (fun eds i =>
                r <- erasureExtendRow codec eds i ;;
                match r with
                | inl msg => Done (inl msg)
                | inr eds => erasureExtendCol codec eds i
                end)
             eds (seq 0 (originalDataWidth eds)) ;;
      match r with
      | inl msg => Done (inl msg)
      | inr eds =>
          (* the rows below it *)
          extendEach (erasureExtendRow codec) eds
            (seq (originalDataWidth eds) (width eds - originalDataWidth eds))
      end
  end.

Definition ComputeExtendedDataSquare (data : list bytes) (codec : Codec)
    (treeCreatorFn : Tree) : run (string + EDS) :=
  if Z.ltb (MaxChunks codec) (Z.of_nat (length data)) then
    Done (inl "number of chunks exceeds the maximum"%string)
  else
    match data with
    | [] => Done (inl "failed to determine chunk size"%string)
    | d :: _ =>
        let chunkSize_ := length d in
        match ValidateChunkSize codec (Z.of_nat chunkSize_) with
        | Some msg => Done (inl msg)
        | None =>
            match newDataSquare data treeCreatorFn chunkSize_ with
            | inl msg => Done (inl msg)
            | inr ds => erasureExtendSquare codec ds
            end
        end
    end.

(** What the steps of the extension keep of a square: its dimensions, its
    being a square, and the cells of the original quadrant. *)
Definition preserved (ds ds' : EDS) : Prop :=
  width ds' = width ds /\
  chunkSize ds' = chunkSize ds /\
  originalDataWidth ds' = originalDataWidth ds /\
  (isSquare (width ds) (squareRow ds) -> isSquare (width ds) (squareRow ds')) /\
  forall r c : nat,
    (r < originalDataWidth ds)%nat -> (c < originalDataWidth ds)%nat ->
    cellAt (squareRow ds') r c = cellAt (squareRow ds) r c.

(** [GetCell]: a copy of the cell, of the size of a share; the indices are
    not checked, so that the indexing panics beyond the square. *)
Definition copyCell (n : nat) (cell : bytes) : bytes :=
  take n cell ++ replicate (n - length cell) Byte.x00.

(** [l[i]] for an unsigned [i]: the bounds check of the Go runtime, then
    the element. *)
Definition elementAt {A} (l : list A) (i : Z) : run A :=
  if Z.leb (Z.of_nat (length l)) i then
    Panicked (IndexOutOfRange i (Z.of_nat (length l)))
  else
    match l !! Z.to_nat i with
    | Some a => Done a
    | None => Panicked (IndexOutOfRange i (Z.of_nat (length l)))
    end.

Definition GetCell (ds : EDS) (rowIdx colIdx : Z) : run bytes :=
  row <- elementAt (squareRow ds) rowIdx ;;
  cell <- elementAt row colIdx ;;
  Done (copyCell (chunkSize ds) cell).

End Rsmt2d.

(** ** The orchestration: [extendBlock], [extendShares], [makeExtendedHeader] *)

(** The calls into the dependencies that the claims speak of. *)
Inductive call : Type :=
| share_EmptyEDS
| libsquare_Construct
| rsmt2d_ComputeExtendedDataSquare
| da_MinDataAvailabilityHeader
| da_NewDataAvailabilityHeader.

(** A result together with the calls made to obtain it, in order. *)
Definition traced (A : Type) : Type := (list call * A)%type.

Definition calls {A} (t : traced A) : list call := fst t.
Definition result {A} (t : traced A) : A := snd t.

(** [uint64(n)] and [uint(n)] of an [int]. *)
Definition uint64 (n : Z) : Z := n mod 2 ^ 64.

(** The square libraries and the application constants, as far as the
    program uses them.  [EmptyEDS] is the square [share.EmptyEDS()] points
    to; [Size] is [libsquare.Size]; [Version_App] reads
    [Header.Version.App]. *)
Class SquareLibs `{Dec : Decoders} : Type := {
  nmt_Option : Type;
  TreeConstructorFn : Type;
  Square : Type;
  DataAvailabilityHeader : Type;
  Version_App : types_Header -> Z;
  Txs_ToSliceOfBytes : types_Data -> list bytes;
  IsEmptyBlockRef : types_Data -> Z -> bool;
  EmptyEDS : ExtendedDataSquare TreeConstructorFn;
  SquareSizeUpperBound : Z -> Z;
  SubtreeRootThreshold : Z -> Z;
  Construct : list bytes -> Z -> Z -> string + Square;
  ToBytes : Square -> list bytes;
  Size : Z -> Z;
  DefaultCodec : Codec;
  NewConstructor : Z -> list nmt_Option -> TreeConstructorFn;
  MinDataAvailabilityHeader : DataAvailabilityHeader;
  NewDataAvailabilityHeader :
    ExtendedDataSquare TreeConstructorFn -> string + DataAvailabilityHeader
}.

Section Orchestrator.
Context `{Lib : SquareLibs}.
Local Open Scope run_scope.
#[local] Abbreviation EDS := (ExtendedDataSquare TreeConstructorFn).

Record ExtendedHeader : Type := mkExtendedHeader {
  eh_Header : types_Header;
  eh_Commit : types_Commit;
  eh_ValidatorSet : types_ValidatorSet;
  eh_DAH : DataAvailabilityHeader
}.

Definition extendShares (s : list bytes) (options : list nmt_Option)
  : traced (run (goret EDS)) :=
  if negb (IsPowerOfTwo (Z.of_nat (length s))) then
    ([], Done (None, Some (ErrNotPowerOfTwo (Z.of_nat (length s)))))
  else
    let squareSize := Size (Z.of_nat (length s)) in
    ([rsmt2d_ComputeExtendedDataSquare],
     r <- ComputeExtendedDataSquare s DefaultCodec
            (NewConstructor (uint64 squareSize) options) ;;
     Done (of_sum r)).

Definition extendBlock (data : types_Data) (appVersion : Z)
    (options : list nmt_Option) : traced (run (goret EDS)) :=
  if IsEmptyBlockRef data appVersion then
    ([share_EmptyEDS], Done (Some EmptyEDS, None))
  else
    match Construct (Txs_ToSliceOfBytes data)
            (SquareSizeUpperBound appVersion)
            (SubtreeRootThreshold appVersion) with
    | inl msg => ([libsquare_Construct], Done (None, Some (ErrDependency msg)))
    | inr square =>
        let '(cs, r) := extendShares (ToBytes square) options in
        (libsquare_Construct :: cs, r)
    end.

Definition makeExtendedHeader (h : types_Header) (comm : types_Commit)
    (vals : types_ValidatorSet) (eds : option EDS)
  : traced (goret ExtendedHeader) :=
  match eds with
  | None =>
      ([da_MinDataAvailabilityHeader],
       (Some {| eh_Header := h; eh_DAH := MinDataAvailabilityHeader;
                eh_Commit := comm; eh_ValidatorSet := vals |}, None))
  | Some eds =>
      match NewDataAvailabilityHeader eds with
      | inl msg => ([da_NewDataAvailabilityHeader], (None, Some (ErrDependency msg)))
      | inr dah =>
          ([da_NewDataAvailabilityHeader],
           (Some {| eh_Header := h; eh_DAH := dah;
                    eh_Commit := comm; eh_ValidatorSet := vals |}, None))
      end
  end.

End Orchestrator.

(** ** The command line *)

(** The network and [strconv.Atoi]. *)
Class Node `{Dec : Decoders} : Type := {
  Client : Type;
  grpc_NewClient : string -> string + Client;
  BlockByHeight : Client -> Z -> string + Stream;
  Atoi : string -> string + Z
}.

(** How the process ends, and what [fmt.Println] is given. *)
Inductive ending : Type :=
| Exit (code : Z)
| Crash (p : panic).

Section CommandLine.
Context `{Lib : SquareLibs} `{Net : !Node}.
Local Open Scope run_scope.

Inductive line : Type :=
| PrintString (s : string)
| PrintError (e : error)
| PrintExtendedHeader (eh : option ExtendedHeader)
| PrintBlock (block : option SignedBlock)
| PrintShare (cell : bytes).

(** A step of [main]: it goes on with a value or ends the process, and
    in both cases appends to what was printed. *)
Definition io (A : Type) : Type := list line -> (ending + A) * list line.

Definition io_ret {A} (a : A) : io A := fun out => (inr a, out).

Definition io_bind {A B} (m : io A) (k : A -> io B) : io B :=
  fun out =>
    match m out with
    | (inl e, out') => (inl e, out')
    | (inr a, out') => k a out'
    end.

Definition Println (l : line) : io unit := fun out => (inr tt, out ++ [l]).
Definition os_Exit {A} (code : Z) : io A := fun out => (inl (Exit code), out).
Definition crash {A} (p : panic) : io A := fun out => (inl (Crash p), out).

Definition io_run {A} (r : run A) : io A :=
  match r with
  | Done a => io_ret a
  | Panicked p => crash p
  end.

(** [args[i]]. *)
Definition index (args : list string) (i : nat) : io string :=
  match args !! i with
  | Some a => io_ret a
  | None => crash (IndexOutOfRange (Z.of_nat i) (Z.of_nat (length args)))
  end.

(** The use of a pointer. *)
Definition deref {A} (p : option A) : io A :=
  match p with
  | Some a => io_ret a
  | None => crash NilDereference
  end.

Record CoreAccessor : Type := mkCoreAccessor { client : Client }.

Definition NewCoreAccessor (ip : string) : goret CoreAccessor :=
  match grpc_NewClient ip with
  | inl msg => (None, Some (ErrDependency msg))
  | inr conn => (Some {| client := conn |}, None)
  end.

Definition getSignedBlock (c : CoreAccessor) (h : string) : run (goret SignedBlock) :=
  match Atoi h with
  | inl msg => Done (None, Some (ErrDependency msg))
  | inr height =>
      match BlockByHeight (client c) height with
      | inl msg => Done (None, Some (ErrDependency msg))
      | inr stream =>
          r <- fst (receiveBlockByHeight stream) ;;
          match r with
          | (_, Some e) => Done (None, Some e)
          | (block, None) => Done (block, None)
          end
      end
  end.

Declare Scope io_scope.
Delimit Scope io_scope with io.
Notation "x <- m ;; k" := (io_bind m (fun x => k))
  (at level 100, m at next level, right associativity) : io_scope.
Notation "m ;; k" := (io_bind m (fun _ => k))
  (at level 100, right associativity) : io_scope.

(** [if err != nil { fmt.Println(err); os.Exit(1) }] after a call. *)
Definition exitOnError {A} (r : goret A) : io (option A) :=
  match r with
  | (_, Some e) => (Println (PrintError e) ;; os_Exit 1)%io
  | (a, None) => io_ret a
  end.

(** The same after [strconv.Atoi]. *)
Definition exitOnAtoiError (r : string + Z) : io Z :=
  match r with
  | inl msg => (Println (PrintError (ErrDependency msg)) ;; os_Exit 1)%io
  | inr n => io_ret n
  end.

(** [main], on [os.Args[1:]]. *)
Definition main (args : list string) : io unit :=
  ((if Nat.eqb (length args) 0 then os_Exit 0 else io_ret tt) ;;
   (* First argument is the core address *)
   ip <- index args 0 ;;
   coreAccessor <- exitOnError (NewCoreAccessor ip) ;;
   (* Second argument is command *)
   cmd <- index args 1 ;;
   (if String.eqb cmd "eds" then
      Println (PrintString "eds") ;;
      h <- index args 2 ;;
      c <- deref coreAccessor ;;
      r <- io_run (getSignedBlock c h) ;;
      block <- exitOnError r ;;
      block <- deref block ;;
      r <- io_run (result (extendBlock (sb_Data block)
                             (Version_App (sb_Header block)) [])) ;;
      eds <- exitOnError r ;;
      eh <- exitOnError (result (makeExtendedHeader (sb_Header block)
                                   (sb_Commit block) (sb_ValidatorSet block) eds)) ;;
      Println (PrintExtendedHeader eh)
    else if String.eqb cmd "share" then
      Println (PrintString "share") ;;
      h <- index args 2 ;;
      c <- deref coreAccessor ;;
      r <- io_run (getSignedBlock c h) ;;
      block <- exitOnError r ;;
      block <- deref block ;;
      r <- io_run (result (extendBlock (sb_Data block)
                             (Version_App (sb_Header block)) [])) ;;
      eds <- exitOnError r ;;
      (* Fourth and fifth arguments are indices *)
      a3 <- index args 3 ;;
      r <- exitOnAtoiError (Atoi a3) ;;
      a4 <- index args 4 ;;
      c <- exitOnAtoiError (Atoi a4) ;;
      eds <- deref eds ;;
      cell <- io_run (GetCell eds (uint64 r) (uint64 c)) ;;
      Println (PrintShare cell)
    else if String.eqb cmd "blob" then
      Println (PrintString "blob")
    else if String.eqb cmd "block" then
      Println (PrintString "block") ;;
      h <- index args 2 ;;
      c <- deref coreAccessor ;;
      r <- io_run (getSignedBlock c h) ;;
      block <- exitOnError r ;;
      Println (PrintBlock block)
    else os_Exit 0) ;;
   os_Exit 0)%io.

(** The process on its arguments: how it ends and what it printed. *)
Definition runMain (args : list string) : ending * list line :=
  match main args [] with
  | (inl e, out) => (e, out)
  | (inr _, out) => (Exit 0, out)
  end.

End CommandLine.

(** A sample of the libraries and of a node to run the program on.  The
    codec repeats the data as its parity; a transaction is one byte and
    makes one share of two bytes; a root is the concatenation of the cells
    it commits to.  The node serves three heights. *)
Module SampleNode.
Import Sample.

Definition repetition : Codec :=
  {| Encode := fun data => inr data;
     MaxChunks := 128 * 128;
     ValidateChunkSize := fun _ => None |}.

Definition roots (sq : list (list bytes)) : list bytes :=
  ((fun row => concat row) <$> sq) ++
  ((fun c => concat ((fun row => default [] (row !! c)) <$> sq)) <$> seq 0 (length sq)).

(** The extension of the single padding share. *)
Definition emptyEDS : ExtendedDataSquare Z :=
  {| squareRow := [[[Byte.xff; Byte.x00]; [Byte.xff; Byte.x00]];
                   [[Byte.xff; Byte.x00]; [Byte.xff; Byte.x00]]];
     width := 2; chunkSize := 2; originalDataWidth := 1; createTreeFn := 1 |}.

Definition txs (d : bytes) : list bytes := (fun b => [b]) <$> d.

Definition isEmpty (d : bytes) (appVersion : Z) : bool :=
  match d with
  | [] => true
  | _ => false
  end.

Definition construct (txs : list bytes) (bound threshold : Z) : string + list bytes :=
  if Z.ltb (bound * bound) (Z.of_nat (length txs)) then inl "square too large"%string
  else inr ((fun tx => tx ++ [Byte.x00]) <$> txs).

#[export] Instance libs : SquareLibs := {|
  nmt_Option := unit;
  TreeConstructorFn := Z;
  Square := list bytes;
  DataAvailabilityHeader := list bytes;
  Version_App := fun _ => 3;
  Txs_ToSliceOfBytes := txs;
  IsEmptyBlockRef := isEmpty;
  EmptyEDS := emptyEDS;
  SquareSizeUpperBound := fun _ => 128;
  SubtreeRootThreshold := fun _ => 64;
  Construct := construct;
  ToBytes := fun sq => sq;
  Size := ceilSqrt;
  DefaultCodec := repetition;
  NewConstructor := fun squareSize _ => squareSize;
  MinDataAvailabilityHeader := roots (squareRow emptyEDS);
  NewDataAvailabilityHeader := fun eds => inr (roots (squareRow eds))
|}.

(** A decimal [Atoi]. *)
Fixpoint digits (s : string) (acc : Z) : option Z :=
  match s with
  | EmptyString => Some acc
  | String c rest =>
      let n := Z.of_nat (Ascii.nat_of_ascii c) in
      if Z.leb 48 n && Z.leb n 57 then digits rest (10 * acc + (n - 48)) else None
  end.

Definition atoi (s : string) : string + Z :=
  match s with
  | EmptyString => inl "invalid syntax"%string
  | String "-"%char rest =>
      match rest, digits rest 0 with
      | String _ _, Some n => inr (- n)
      | _, _ => inl "invalid syntax"%string
      end
  | _ =>
      match digits s 0 with
      | Some n => inr n
      | None => inl "invalid syntax"%string
      end
  end.

(** Height 1: a block of version byte 3 and four transactions, in two
    fragments.  Height 2: a block without transactions.  Height 3: a
    stream that ends early.  Height 4: a block of two transactions. *)
Definition serve (h : Z) : string + Stream :=
  if Z.eqb h 1 then
    inr {| pending := [Sample.firstFragment 0 [Byte.x03; Byte.x0a; Byte.x0b] false;
                       Sample.fragment 1 [Byte.x0c; Byte.x0d] true];
           closing := EOF |}
  else if Z.eqb h 2 then
    inr {| pending := [Sample.firstFragment 0 [Byte.x03] true]; closing := EOF |}
  else if Z.eqb h 3 then inr Sample.truncated
  else if Z.eqb h 4 then
    inr {| pending := [Sample.firstFragment 0 [Byte.x03; Byte.x0a; Byte.x0b] true];
           closing := EOF |}
  else inl "height not available"%string.

#[export] Instance node : Node := {|
  Client := unit;
  grpc_NewClient := fun ip =>
    match ip with
    | EmptyString => inl "empty target"%string
    | _ => inr tt
    end;
  BlockByHeight := fun _ h => serve h;
  Atoi := atoi
|}.

(** The shares of the block of height 1, their extension, and what the
    program makes of that block. *)
Definition fourShares : list bytes :=
  [[Byte.x0a; Byte.x00]; [Byte.x0b; Byte.x00]; [Byte.x0c; Byte.x00]; [Byte.x0d; Byte.x00]].

Definition extended4 : ExtendedDataSquare Z :=
  Eval vm_compute in
    match result (extendShares fourShares []) with
    | Done (Some eds, None) => eds
    | _ => emptyEDS
    end.

Definition block1 : SignedBlock :=
  {| sb_Header := [Byte.x03];
     sb_Commit := [Byte.x0c];
     sb_Data := [Byte.x0a; Byte.x0b; Byte.x0c; Byte.x0d];
     sb_ValidatorSet := [Byte.x0f] |}.

Definition dah1 : list bytes := Eval vm_compute in roots (squareRow extended4).

Definition header1 : ExtendedHeader :=
  {| eh_Header := [Byte.x03];
     eh_Commit := [Byte.x0c];
     eh_ValidatorSet := [Byte.x0f];
     eh_DAH := dah1 |}.

End SampleNode.

(** ** The earlier command line

    The second program of the repository has the same [SignedBlock],
    [CoreAccessor], [NewCoreAccessor], [getSignedBlock],
    [receiveBlockByHeight] and [partsToBlock], line for line, and knows
    nothing of squares: its [main] has no [eds] command, and its [share]
    command prints the block. *)
Module Earlier.
Section CommandLine.
Context `{Lib : SquareLibs} `{Net : !Node}.

Declare Scope earlier_io_scope.
Delimit Scope earlier_io_scope with io.
Notation "x <- m ;; k" := (io_bind m (fun x => k))
  (at level 100, m at next level, right associativity) : earlier_io_scope.
Notation "m ;; k" := (io_bind m (fun _ => k))
  (at level 100, right associativity) : earlier_io_scope.

Definition main (args : list string) : io unit :=
  ((if Nat.eqb (length args) 0 then os_Exit 0 else io_ret tt) ;;
   (* First argument is the core address *)
   ip <- index args 0 ;;
   coreAccessor <- exitOnError (NewCoreAccessor ip) ;;
   (* Second argument is command *)
   cmd <- index args 1 ;;
   (if String.eqb cmd "share" then
      Println (PrintString "share") ;;
      h <- index args 2 ;;
      c <- deref coreAccessor ;;
      r <- io_run (getSignedBlock c h) ;;
      block <- exitOnError r ;;
      Println (PrintBlock block)
    else if String.eqb cmd "blob" then
      Println (PrintString "blob")
    else if String.eqb cmd "block" then
      Println (PrintString "block") ;;
      h <- index args 2 ;;
      c <- deref coreAccessor ;;
      r <- io_run (getSignedBlock c h) ;;
      block <- exitOnError r ;;
      Println (PrintBlock block)
    else os_Exit 0) ;;
   os_Exit 0)%io.

Definition runMain (args : list string) : ending * list line :=
  match main args [] with
  | (inl e, out) => (e, out)
  | (inr _, out) => (Exit 0, out)
  end.

End CommandLine.
End Earlier.

(** ** Rows and columns of a square, for the statements

    The first [k] cells of a row, and of a column. *)
Definition rowCells (sq : list (list bytes)) (r k : nat) : list bytes :=
  (fun c => default [] (cellAt sq r c)) <$> seq 0 k.

Definition colCells (sq : list (list bytes)) (c k : nat) : list bytes :=
  (fun r => default [] (cellAt sq r c)) <$> seq 0 k.

(** ** More samples: the block of height 2 of the sample node, which has no
    transaction. *)
Module SampleBlocks.
Import Sample SampleNode.

Definition block2 : SignedBlock :=
  {| sb_Header := [Byte.x03];
     sb_Commit := [Byte.x0c];
     sb_Data := [];
     sb_ValidatorSet := [Byte.x0f] |}.

Definition header2 (dah : list bytes) : ExtendedHeader :=
  {| eh_Header := [Byte.x03];
     eh_Commit := [Byte.x0c];
     eh_ValidatorSet := [Byte.x0f];
     eh_DAH := dah |}.

End SampleBlocks.

(** * Facts *)

(** ** The part set *)

Section PartSetFacts.
Context `{Dec : Decoders}.

Lemma Part_eta (p : Part) : {| Index := Index p; Bytes := Bytes p |} = p.
Proof. by destruct p. Qed.

(** Adding a part whose slot is free files it at its declared index. *)
Lemma AddPartWithoutProof_free (partSet : PartSet) (p : Part) :
  0 <= Index p < total partSet ->
  parts partSet !! Z.to_nat (Index p) = Some None ->
  AddPartWithoutProof partSet p =
    ((true, None),
     {| total := total partSet;
        parts := <[Z.to_nat (Index p) := Some p]> (parts partSet);
        count := count partSet + 1;
        byteSize := byteSize partSet + Z.of_nat (length (Bytes p)) |}).
Proof.
  intros [_ Hlt] Hslot. unfold AddPartWithoutProof.
  destruct (Z.leb_spec (total partSet) (Index p)) as [Hle|_]; [lia|].
  by rewrite Hslot.
Qed.

(** A slot already filled is refused, and no error comes with it. *)
Lemma AddPartWithoutProof_taken (partSet : PartSet) (p q : Part) :
  Index p < total partSet ->
  parts partSet !! Z.to_nat (Index p) = Some (Some q) ->
  AddPartWithoutProof partSet p = ((false, None), partSet).
Proof.
  intros Hlt Hslot. unfold AddPartWithoutProof.
  destruct (Z.leb_spec (total partSet) (Index p)) as [Hle|_]; [lia|].
  by rewrite Hslot.
Qed.

Lemma AddPartWithoutProof_beyond (partSet : PartSet) (p : Part) :
  total partSet <= Index p ->
  AddPartWithoutProof partSet p = ((false, Some ErrPartSetUnexpectedIndex), partSet).
Proof.
  intros Hle. unfold AddPartWithoutProof.
  by destruct (Z.leb_spec (total partSet) (Index p)) as [_|Hlt]; [|lia].
Qed.

(** The loop of [partsToBlock] on parts with distinct declared indices,
    all within the set and all on free slots: every part ends at the slot
    of its index, the other slots are untouched. *)
Lemma addParts_fill (ps : list Part) : forall (partSet : PartSet),
  NoDup (Index <$> ps) ->
  (forall p, p ∈ ps ->
     0 <= Index p < total partSet /\
     parts partSet !! Z.to_nat (Index p) = Some None) ->
  exists partSet',
    addParts (Some <$> ps) partSet = Done (Next partSet') /\
    total partSet' = total partSet /\
    count partSet' = count partSet + Z.of_nat (length ps) /\
    length (parts partSet') = length (parts partSet) /\
    (forall p, p ∈ ps -> parts partSet' !! Z.to_nat (Index p) = Some (Some p)) /\
    (forall i : nat, (forall p, p ∈ ps -> Z.to_nat (Index p) <> i) ->
       parts partSet' !! i = parts partSet !! i).
Proof.
  induction ps as [|p ps IH]; intros partSet Hnd Hfree.
  - exists partSet. cbn. split; [done|]. split; [done|]. split; [lia|].
    split; [done|]. split; [by intros ? ?%elem_of_nil|done].
  - apply list.NoDup_cons in Hnd as [Hp Hnd].
    destruct (Hfree p) as [Hrange Hslot]; [by left|].
    rewrite fmap_cons. cbn [addParts]. rewrite Part_eta.
    rewrite (AddPartWithoutProof_free _ _ Hrange Hslot). cbn [negb].
    set (partSet1 := {| total := total partSet |}).
    assert (Hother : forall q, q ∈ ps -> Z.to_nat (Index q) <> Z.to_nat (Index p)).
    { intros q Hq Heq. apply Hp. apply list_elem_of_fmap. exists q. split; [|done].
      destruct (Hfree q) as [Hq' _]; [by right|]. lia. }
    destruct (IH partSet1) as (partSet' & Hrun & Htot & Hcnt & Hlen & Hin & Hout);
      [done| |].
    { intros q Hq. destruct (Hfree q) as [Hq1 Hq2]; [by right|]. split; [done|].
      cbn. rewrite list_lookup_insert_ne; [done|]. by intros ?; eapply Hother. }
    exists partSet'. split; [done|]. split; [done|]. split.
    { rewrite Hcnt. cbn [partSet1 count length]. lia. }
    split. { rewrite Hlen. cbn. by rewrite length_insert. }
    split.
    + intros q [->|Hq]%elem_of_cons; [|by apply Hin].
      rewrite Hout; [|done]. cbn. apply list_lookup_insert_eq.
      by eapply lookup_lt_Some.
    + intros i Hi. rewrite Hout; [|by intros q Hq; apply Hi; right].
      cbn. apply list_lookup_insert_ne. apply Hi. by left.
Qed.

(** Reading slots that are all filled concatenates their payloads. *)
Lemma readSlots_filled (qs : list Part) :
  readSlots (Some <$> qs) = Done (concat (Bytes <$> qs)).
Proof.
  induction qs as [|q qs IH]; [done|]. cbn. cbn in IH. by rewrite IH.
Qed.

Lemma slots_filled (sl : list (option Part)) :
  (forall i : nat, (i < length sl)%nat -> exists p, sl !! i = Some (Some p)) ->
  exists qs, sl = Some <$> qs.
Proof.
  induction sl as [|o sl IH]; intros Hall.
  - by exists [].
  - destruct (Hall 0%nat) as [p Hp]; [cbn; lia|]. cbn in Hp. simplify_eq.
    destruct IH as [qs ->].
    { intros i Hi. apply (Hall (S i)). cbn. lia. }
    by exists (p :: qs).
Qed.

Lemma uint32_small (n : Z) : 0 <= n < 2 ^ 32 -> uint32 n = n.
Proof. intros H. unfold uint32. by apply Z.mod_small. Qed.

(** The buffer read back from the part set when the declared indices of
    the parts are the numbers [0 .. n-1] in some order: the payloads in
    the order of the declared indices. *)
Lemma partsToBlock_bz_by_index (ps : list Part) :
  ps <> [] ->
  Z.of_nat (length ps) < 2 ^ 32 ->
  Index <$> ps ≡ₚ seqZ 0 (Z.of_nat (length ps)) ->
  exists qs,
    ps ≡ₚ qs /\
    Index <$> qs = seqZ 0 (Z.of_nat (length ps)) /\
    partsToBlock_bz (Some <$> ps) = Done (Next (concat (Bytes <$> qs))).
Proof.
  intros Hne Hlen Hperm. set (n := Z.of_nat (length ps)) in *.
  assert (Hnd : NoDup (Index <$> ps)) by (rewrite Hperm; apply NoDup_seqZ).
  assert (Hrange : forall p, p ∈ ps -> 0 <= Index p < n).
  { intros p Hp. assert (Hin : Index p ∈ Index <$> ps) by (by apply list_elem_of_fmap_2).
    rewrite Hperm in Hin. apply elem_of_seqZ in Hin. lia. }
  destruct (addParts_fill ps (NewPartSetFromHeader n) Hnd)
    as (partSet' & Hrun & Htot & Hcnt & Hlen' & Hin & _).
  { intros p Hp. split; [by apply Hrange|]. cbn.
    apply lookup_replicate_2. specialize (Hrange p Hp). lia. }
  cbn in Htot, Hcnt, Hlen'. rewrite length_replicate in Hlen'.
  destruct (slots_filled (parts partSet')) as [qs Hqs].
  { intros i Hi. rewrite Hlen' in Hi.
    assert (Hi' : Z.of_nat i ∈ Index <$> ps).
    { rewrite Hperm. apply elem_of_seqZ. lia. }
    apply list_elem_of_fmap in Hi' as (p & Hip & Hp).
    exists p. rewrite <- (Hin p Hp). f_equal. lia. }
  assert (Hlook : forall p, p ∈ ps -> qs !! Z.to_nat (Index p) = Some p).
  { intros p Hp. specialize (Hin p Hp). rewrite Hqs, list_lookup_fmap in Hin.
    destruct (qs !! Z.to_nat (Index p)); by simplify_eq/=. }
  assert (Hqlen : length qs = length ps).
  { rewrite <- (length_fmap Some qs), <- Hqs, Hlen'. unfold n. lia. }
  assert (Hidx : Index <$> qs = seqZ 0 n).
  { apply list_eq. intros i. rewrite list_lookup_fmap.
    destruct (decide (i < length ps)%nat) as [Hi|Hi].
    - assert (Hi' : Z.of_nat i ∈ Index <$> ps).
      { rewrite Hperm. apply elem_of_seqZ. unfold n. lia. }
      apply list_elem_of_fmap in Hi' as (p & Hip & Hp).
      specialize (Hlook p Hp). rewrite <- Hip, Nat2Z.id in Hlook. rewrite Hlook. cbn.
      rewrite lookup_seqZ_lt; [|unfold n; lia]. f_equal. lia.
    - rewrite lookup_ge_None_2; [|lia]. cbn. symmetry.
      apply lookup_seqZ_ge. unfold n. lia. }
  exists qs. split; [|split; [done|]].
  - apply NoDup_Permutation.
    + by eapply NoDup_fmap_1.
    + eapply NoDup_fmap_1. rewrite Hidx. apply NoDup_seqZ.
    + intros p. split.
      * intros Hp. eapply list_elem_of_lookup_2. by apply Hlook.
      * intros [i Hi]%list_elem_of_lookup_1.
        assert (Hlt : (i < length ps)%nat) by (rewrite <- Hqlen; by eapply lookup_lt_Some).
        assert (Hi' : Z.of_nat i ∈ Index <$> ps).
        { rewrite Hperm. apply elem_of_seqZ. unfold n. lia. }
        apply list_elem_of_fmap in Hi' as (p' & Hip & Hp').
        specialize (Hlook p' Hp'). rewrite <- Hip, Nat2Z.id in Hlook.
        by simplify_eq.
  - unfold partsToBlock_bz. rewrite length_fmap.
    rewrite uint32_small; [|unfold n in *; lia]. fold n. rewrite Hrun. cbn.
    unfold ReadAll_GetReader, IsComplete. rewrite Hcnt, Htot.
    rewrite (proj2 (Z.eqb_eq _ _)); [|lia].
    rewrite Hqs. destruct qs as [|q qs'].
    { destruct ps; [done|]. cbn in Hqlen. lia. }
    rewrite fmap_cons. rewrite <- (fmap_cons Some). by rewrite readSlots_filled.
Qed.

End PartSetFacts.

(** ** The stream *)

Section StreamFacts.
Context `{Dec : Decoders}.

(** The loop of [receiveBlockByHeight] is one [Recv] per turn. *)
Lemma receiveRest_Recv (st : Stream) (ps : list (option Part)) :
  receiveRest (closing st) (pending st) ps =
    match Recv st with
    | ((_, Some e), st') => (Return (None, Some e), st')
    | ((None, None), st') => (Return (None, None), st')
    | ((Some resp, None), st') =>
        if IsLast resp then (Next (ps ++ [BlockPart resp]), st')
        else receiveRest (closing st') (pending st') (ps ++ [BlockPart resp])
    end.
Proof. destruct st as [[|resp rest] cl]; reflexivity. Qed.

Lemma receiveRest_untilLast (cl : error) (todo : list BlockByHeightResponse) :
  forall ps,
  receiveRest cl todo ps =
    match untilLast todo with
    | Some (consumed, remaining) =>
        (Next (ps ++ (BlockPart <$> consumed)), {| pending := remaining; closing := cl |})
    | None => (Return (None, Some cl), {| pending := []; closing := cl |})
    end.
Proof.
  induction todo as [|r rest IH]; intros ps; cbn; [done|].
  destruct (IsLast r); [reflexivity|]. rewrite IH.
  destruct (untilLast rest) as [[consumed remaining]|]; [|reflexivity].
  by rewrite fmap_cons, <- app_assoc.
Qed.

Lemma untilLast_none (rs : list BlockByHeightResponse) :
  Forall (fun r => IsLast r = false) rs -> untilLast rs = None.
Proof.
  induction 1 as [|r rs Hr _ IH]; cbn; [done|]. by rewrite Hr, IH.
Qed.

(** A stream whose first response decodes and that delivers a response
    marked last: the parts handed to [partsToBlock] are those of the
    responses consumed, in the order of their receipt. *)
Lemma receiveBlockByHeight_parts (st : Stream) first rest commit validatorSet
    consumed remaining :
  pending st = first :: rest ->
  CommitFromProto (resp_Commit first) = inr commit ->
  ValidatorSetFromProto (resp_ValidatorSet first) = inr validatorSet ->
  untilLast (pending st) = Some (consumed, remaining) ->
  receiveBlockByHeight st =
    (signBlock commit validatorSet (partsToBlock (BlockPart <$> consumed)),
     {| pending := remaining; closing := closing st |}).
Proof.
  intros Hpend Hc Hv Hlast. unfold receiveBlockByHeight, Recv.
  rewrite Hpend in *. cbn [ok fail]. rewrite Hc, Hv. cbn in Hlast.
  destruct (IsLast first).
  - by simplify_eq.
  - cbn [pending closing]. rewrite receiveRest_untilLast.
    destruct (untilLast rest) as [[consumed' remaining']|]; [|done].
    by simplify_eq.
Qed.

End StreamFacts.

Section ReassemblerClaims.
Context `{Dec : Decoders}.

Lemma untilLast_consumed (rs consumed remaining : list BlockByHeightResponse) :
  untilLast rs = Some (consumed, remaining) -> consumed <> [].
Proof.
  destruct rs as [|r rs]; cbn; [done|].
  destruct (IsLast r); [by intros [= <- _]|].
  destruct (untilLast rs) as [[c l]|]; [by intros [= <- _]|done].
Qed.

(** Two arrangements of the same parts that declare the same indices at
    the same positions are the same list, when no index is declared twice. *)
Lemma same_indices_same_order (ps qs : list Part) :
  ps ≡ₚ qs ->
  NoDup (Index <$> ps) ->
  Index <$> ps = Index <$> qs ->
  ps = qs.
Proof.
  intros Hperm Hnd Hidx. apply list_eq_same_length with (length ps);
    [by rewrite <- Hperm|done|].
  intros i p q _ Hp Hq.
  assert (Hin : p ∈ qs) by (rewrite <- Hperm; by eapply list_elem_of_lookup_2).
  apply list_elem_of_lookup_1 in Hin as [j Hj].
  assert (Hi : (Index <$> qs) !! i = Some (Index p)).
  { rewrite <- Hidx, list_lookup_fmap. by rewrite Hp. }
  assert (Hj' : (Index <$> qs) !! j = Some (Index p)).
  { rewrite list_lookup_fmap. by rewrite Hj. }
  rewrite Hidx in Hnd.
  pose proof (NoDup_lookup _ _ _ _ Hnd Hi Hj') as ->. congruence.
Qed.

(** C1, as the code has it: the part set files every fragment at the
    index it declares, so that for a stream whose first response decodes
    and that delivers a fragment marked last, when the [n < 2^32]
    fragments consumed declare the indices [0 .. n-1] once each, the
    buffer handed to the deserializer is the concatenation of the payloads
    in the order of the declared indices.  That order is the order of
    receipt exactly when every fragment declares its position in the
    stream.  The same fragments in another arrangement give the same
    buffer, and a second stream whose first response decodes and whose
    fragments, up to its first one marked last, are the same in another
    order of receipt, gives the block of the same buffer. *)
Theorem receiveBlockByHeight_index_order (st : Stream) first rest commit
    validatorSet consumed remaining (ps : list Part)
    (st' : Stream) first' rest' commit' validatorSet' consumed' remaining'
    (ps' : list Part) :
  pending st = first :: rest ->
  CommitFromProto (resp_Commit first) = inr commit ->
  ValidatorSetFromProto (resp_ValidatorSet first) = inr validatorSet ->
  untilLast (pending st) = Some (consumed, remaining) ->
  BlockPart <$> consumed = Some <$> ps ->
  Z.of_nat (length ps) < 2 ^ 32 ->
  Index <$> ps ≡ₚ seqZ 0 (Z.of_nat (length ps)) ->
  pending st' = first' :: rest' ->
  CommitFromProto (resp_Commit first') = inr commit' ->
  ValidatorSetFromProto (resp_ValidatorSet first') = inr validatorSet' ->
  untilLast (pending st') = Some (consumed', remaining') ->
  BlockPart <$> consumed' = Some <$> ps' ->
  ps' ≡ₚ ps ->
  exists qs,
    ps ≡ₚ qs /\
    Index <$> qs = seqZ 0 (Z.of_nat (length ps)) /\
    partsToBlock_bz (Some <$> ps) = Done (Next (concat (Bytes <$> qs))) /\
    fst (receiveBlockByHeight st) =
      signBlock commit validatorSet (Done (decodeBlock (concat (Bytes <$> qs)))) /\
    (qs = ps <-> Index <$> ps = seqZ 0 (Z.of_nat (length ps))) /\
    (forall ps'', ps'' ≡ₚ ps ->
       partsToBlock_bz (Some <$> ps'') = partsToBlock_bz (Some <$> ps)) /\
    fst (receiveBlockByHeight st') =
      signBlock commit' validatorSet'
        (Done (decodeBlock (concat (Bytes <$> qs)))).
Proof.
  intros Hpend Hc Hv Hlast Hparts Hlen Hperm Hpend' Hc' Hv' Hlast' Hparts' Hsame.
  assert (Hne : ps <> []).
  { apply untilLast_consumed in Hlast. intros ->. by destruct consumed. }
  destruct (partsToBlock_bz_by_index ps Hne Hlen Hperm) as (qs & Hpq & Hidx & Hbz).
  assert (Hnd : NoDup (Index <$> ps)) by (rewrite Hperm; apply NoDup_seqZ).
  assert (Hall : forall ps'', ps'' ≡ₚ ps ->
            partsToBlock_bz (Some <$> ps'') = partsToBlock_bz (Some <$> ps)).
  { intros ps'' Hperm''.
    assert (Hlen'' : length ps'' = length ps) by (by rewrite Hperm'').
    destruct (partsToBlock_bz_by_index ps'') as (qs'' & Hpq'' & Hidx'' & Hbz'').
    - intros ->. by destruct ps.
    - by rewrite Hlen''.
    - by rewrite Hlen'', Hperm''.
    - rewrite Hbz, Hbz''. do 4 f_equal.
      apply same_indices_same_order.
      + by rewrite <- Hpq'', Hperm''.
      + rewrite Hidx''. apply NoDup_seqZ.
      + rewrite Hidx'', Hidx. by rewrite Hlen''. }
  exists qs. split_and!; try done.
  - rewrite (receiveBlockByHeight_parts st first rest commit validatorSet
               consumed remaining) by done.
    cbn [fst]. unfold partsToBlock. by rewrite Hparts, Hbz.
  - split.
    + intros <-. done.
    + intros Heq. symmetry. apply same_indices_same_order; [done..|congruence].
  - rewrite (receiveBlockByHeight_parts st' first' rest' commit' validatorSet'
               consumed' remaining') by done.
    cbn [fst]. unfold partsToBlock. by rewrite Hparts', (Hall ps' Hsame), Hbz.
Qed.

(** C4: a stream that ends, by an error or by [EOF], without a response
    marked last makes [receiveBlockByHeight] return an error and no
    block. *)
Theorem receiveBlockByHeight_truncated (st : Stream) :
  Forall (fun r => IsLast r = false) (pending st) ->
  exists e, fst (receiveBlockByHeight st) = Done (None, Some e).
Proof.
  intros Hall. unfold receiveBlockByHeight, Recv.
  destruct (pending st) as [|first rest] eqn:Hpend; cbn [ok fail].
  - by exists (closing st).
  - apply list.Forall_cons in Hall as [Hfirst Hrest].
    destruct (CommitFromProto (resp_Commit first)) as [e|commit]; [by eexists|].
    destruct (ValidatorSetFromProto (resp_ValidatorSet first)) as [e|validatorSet];
      [by eexists|].
    rewrite Hfirst. cbn [pending closing].
    rewrite receiveRest_untilLast, (untilLast_none _ Hrest).
    by exists (closing st).
Qed.

(** C8: when the commit or the validator set of the first response does
    not decode, [receiveBlockByHeight] returns an error and no block, and
    the stream has been read once: every later response is still
    pending. *)
Theorem receiveBlockByHeight_malformed_first (st : Stream) first rest :
  pending st = first :: rest ->
  (exists msg, CommitFromProto (resp_Commit first) = inl msg) \/
  (exists msg, ValidatorSetFromProto (resp_ValidatorSet first) = inl msg) ->
  exists e,
    receiveBlockByHeight st =
      (Done (None, Some e), {| pending := rest; closing := closing st |}).
Proof.
  intros Hpend Hbad. unfold receiveBlockByHeight, Recv. rewrite Hpend. cbn [ok fail].
  destruct (CommitFromProto (resp_Commit first)) as [e|commit]; [by eexists|].
  destruct Hbad as [[e He]|[e He]]; [done|].
  rewrite He. by eexists.
Qed.

End ReassemblerClaims.

(** The claims on the sample streams. *)

Section SampleStreams.
#[local] Existing Instance Sample.decoders.

Lemma receiveBlockByHeight_index_order_witness :
  exists qs,
    [mkPart 1 [Byte.x01]; mkPart 0 [Byte.x00]; mkPart 2 [Byte.x02]] ≡ₚ qs /\
    Index <$> qs = [0; 1; 2] /\
    partsToBlock_bz
      (Some <$> [mkPart 1 [Byte.x01]; mkPart 0 [Byte.x00]; mkPart 2 [Byte.x02]]) =
      Done (Next (concat (Bytes <$> qs))) /\
    fst (receiveBlockByHeight Sample.shuffled) =
      signBlock [Byte.x0c] [Byte.x0f] (Done (decodeBlock (concat (Bytes <$> qs)))) /\
    (qs = [mkPart 1 [Byte.x01]; mkPart 0 [Byte.x00]; mkPart 2 [Byte.x02]] <->
     Index <$> [mkPart 1 [Byte.x01]; mkPart 0 [Byte.x00]; mkPart 2 [Byte.x02]]
       = [0; 1; 2]) /\
    (forall ps'',
       ps'' ≡ₚ [mkPart 1 [Byte.x01]; mkPart 0 [Byte.x00]; mkPart 2 [Byte.x02]] ->
       partsToBlock_bz (Some <$> ps'') =
       partsToBlock_bz
         (Some <$> [mkPart 1 [Byte.x01]; mkPart 0 [Byte.x00]; mkPart 2 [Byte.x02]])) /\
    fst (receiveBlockByHeight
           {| pending := [Sample.firstFragment 2 [Byte.x02] false;
                          Sample.fragment 1 [Byte.x01] false;
                          Sample.fragment 0 [Byte.x00] true];
              closing := EOF |}) =
      signBlock [Byte.x0c] [Byte.x0f] (Done (decodeBlock (concat (Bytes <$> qs)))).
Proof.
  apply (receiveBlockByHeight_index_order Sample.shuffled
           (Sample.firstFragment 1 [Byte.x01] false)
           [Sample.fragment 0 [Byte.x00] false;
            Sample.fragment 2 [Byte.x02] true;
            Sample.fragment 3 [Byte.x03] true]
           [Byte.x0c] [Byte.x0f]
           [Sample.firstFragment 1 [Byte.x01] false;
            Sample.fragment 0 [Byte.x00] false;
            Sample.fragment 2 [Byte.x02] true]
           [Sample.fragment 3 [Byte.x03] true]
           [mkPart 1 [Byte.x01]; mkPart 0 [Byte.x00]; mkPart 2 [Byte.x02]]
           {| pending := [Sample.firstFragment 2 [Byte.x02] false;
                          Sample.fragment 1 [Byte.x01] false;
                          Sample.fragment 0 [Byte.x00] true];
              closing := EOF |}
           (Sample.firstFragment 2 [Byte.x02] false)
           [Sample.fragment 1 [Byte.x01] false;
            Sample.fragment 0 [Byte.x00] true]
           [Byte.x0c] [Byte.x0f]
           [Sample.firstFragment 2 [Byte.x02] false;
            Sample.fragment 1 [Byte.x01] false;
            Sample.fragment 0 [Byte.x00] true]
           []
           [mkPart 2 [Byte.x02]; mkPart 1 [Byte.x01]; mkPart 0 [Byte.x00]]).
  - reflexivity.
  - reflexivity.
  - reflexivity.
  - reflexivity.
  - reflexivity.
  - reflexivity.
  - apply perm_swap.
  - reflexivity.
  - reflexivity.
  - reflexivity.
  - reflexivity.
  - reflexivity.
  - etransitivity; [apply perm_swap|]. apply perm_skip, perm_swap.
Defined.

(** C1 as the specification states it fails: two fragments delivered in
    the order 1, 0 are handed to the deserializer in the order 0, 1, and
    the block is not the one of the payloads in the order of receipt. *)
Lemma receipt_order_counterexample :
  let st := {| pending := [Sample.firstFragment 1 [Byte.x0b] false;
                           Sample.fragment 0 [Byte.x0a] true];
               closing := EOF |} in
  partsToBlock_bz
      [Some (mkPart 1 [Byte.x0b]); Some (mkPart 0 [Byte.x0a])]
    = Done (Next [Byte.x0a; Byte.x0b]) /\
  fst (receiveBlockByHeight st) =
    signBlock [Byte.x0c] [Byte.x0f] (Done (decodeBlock [Byte.x0a; Byte.x0b])) /\
  fst (receiveBlockByHeight st) <>
    signBlock [Byte.x0c] [Byte.x0f] (Done (decodeBlock ([Byte.x0b] ++ [Byte.x0a]))).
Proof. repeat split. discriminate. Qed.

Lemma receiveBlockByHeight_truncated_witness :
  Forall (fun r => IsLast r = false) (pending Sample.truncated) /\
  exists e, fst (receiveBlockByHeight Sample.truncated) = Done (None, Some e).
Proof.
  assert (H : Forall (fun r => IsLast r = false) (pending Sample.truncated)).
  { repeat constructor. }
  split; [exact H|]. exact (receiveBlockByHeight_truncated Sample.truncated H).
Defined.

Lemma receiveBlockByHeight_malformed_first_witness :
  exists e,
    receiveBlockByHeight Sample.headless =
      (Done (None, Some e),
       {| pending := [Sample.fragment 1 [Byte.x01] true]; closing := EOF |}).
Proof.
  apply (receiveBlockByHeight_malformed_first Sample.headless
           (Sample.fragment 0 [Byte.x00] false)
           [Sample.fragment 1 [Byte.x01] true]).
  - reflexivity.
  - left. by exists "nil Commit"%string.
Defined.

End SampleStreams.

(** ** Powers of two *)

Lemma IsPowerOfTwo_pow2 (k : Z) : 0 <= k -> IsPowerOfTwo (2 ^ k) = true.
Proof.
  intros Hk. unfold IsPowerOfTwo.
  assert (Hpos : 0 < 2 ^ k) by (apply Z.pow_pos_nonneg; lia).
  replace (2 ^ k - 1) with (Z.ones k) by (rewrite Z.ones_equiv; lia).
  rewrite Z.land_ones by done. rewrite Z.mod_same by lia.
  apply andb_true_intro. split; [by apply Z.eqb_eq|].
  apply negb_true_iff, Z.eqb_neq. lia.
Qed.

Lemma IsPowerOfTwo_inv (n : Z) :
  0 <= n -> IsPowerOfTwo n = true -> exists k, 0 <= k /\ n = 2 ^ k.
Proof.
  intros Hn H. unfold IsPowerOfTwo in H.
  apply andb_prop in H as [Hland Hnz].
  apply Z.eqb_eq in Hland. apply negb_true_iff, Z.eqb_neq in Hnz.
  assert (Hpos : 0 < n) by lia.
  destruct (Z.log2_spec n Hpos) as [Hlo Hhi].
  pose proof (Z.log2_nonneg n) as Hk.
  exists (Z.log2 n). split; [done|].
  destruct (decide (n = 2 ^ Z.log2 n)) as [|Hne]; [done|]. exfalso.
  assert (Hbit : Z.testbit (Z.land n (n - 1)) (Z.log2 n) = true).
  { rewrite Z.land_spec. rewrite Z.bit_log2 by done.
    assert (Hpos' : 0 < n - 1).
    { assert (0 < 2 ^ Z.log2 n) by (apply Z.pow_pos_nonneg; lia). lia. }
    replace (Z.log2 n) with (Z.log2 (n - 1)).
    - by rewrite Z.bit_log2.
    - apply Z.log2_unique; [done|]. rewrite Z.pow_succ_r in Hhi by done. 
      rewrite Z.pow_succ_r by done. lia. }
  rewrite Hland in Hbit. by rewrite Z.bits_0 in Hbit.
Qed.

(** [IsPowerOfTwo], on a length: the dependency's test is the property its
    name states. *)
Lemma IsPowerOfTwo_spec (n : Z) :
  0 <= n -> (IsPowerOfTwo n = true <-> exists k, 0 <= k /\ n = 2 ^ k).
Proof.
  intros Hn. split; [by apply IsPowerOfTwo_inv|].
  intros (k & Hk & ->). by apply IsPowerOfTwo_pow2.
Qed.

(** ** Squares *)

Section SquareFacts.
Implicit Types (sq : list (list bytes)) (data : list bytes).

Lemma rowsOf_length w n data : length (rowsOf w n data) = n.
Proof. revert data. induction n as [|n IH]; intros data; cbn; [done|]. by rewrite IH. Qed.

Lemma rowsOf_lookup w n data (r : nat) :
  (r < n)%nat -> rowsOf w n data !! r = Some (take w (drop (r * w) data)).
Proof.
  revert data r. induction n as [|n IH]; intros data r Hr; [lia|].
  destruct r as [|r]; cbn [rowsOf]; [done|].
  rewrite lookup_cons. cbn. rewrite IH by lia. by rewrite drop_drop, Nat.add_comm.
Qed.

Lemma cellAt_rowsOf w n data (r c : nat) :
  (r < n)%nat -> (c < w)%nat ->
  cellAt (rowsOf w n data) r c = data !! (r * w + c)%nat.
Proof.
  intros Hr Hc. unfold cellAt. rewrite rowsOf_lookup by done. cbn.
  rewrite lookup_take_lt by done. by rewrite lookup_drop.
Qed.

Lemma isSquare_rowsOf n data :
  length data = (n * n)%nat -> isSquare n (rowsOf n n data).
Proof.
  intros Hlen. split; [apply rowsOf_length|].
  apply Forall_lookup. intros r row Hrow.
  assert (Hr : (r < n)%nat).
  { apply lookup_lt_Some in Hrow. by rewrite rowsOf_length in Hrow. }
  rewrite rowsOf_lookup in Hrow by done. simplify_eq.
  rewrite length_take, length_drop. nia.
Qed.

Lemma isSquare_setCell n sq x y v : isSquare n sq -> isSquare n (setCell sq x y v).
Proof.
  intros [Hlen Hrows]. unfold setCell. split; [by rewrite length_alter|].
  apply Forall_lookup. intros r row Hrow.
  destruct (decide (r = x)) as [->|Hne].
  - rewrite list_lookup_alter_eq in Hrow.
    destruct (sq !! x) as [row0|] eqn:Hx; [|done]. cbn in Hrow. simplify_eq.
    rewrite length_insert. by eapply (Forall_lookup_1 _ _ _ _ Hrows).
  - rewrite list_lookup_alter_ne in Hrow by done.
    by eapply (Forall_lookup_1 _ _ _ _ Hrows).
Qed.

Lemma cellAt_setCell_other sq x y v (r c : nat) :
  r <> x \/ c <> y -> cellAt (setCell sq x y v) r c = cellAt sq r c.
Proof.
  intros Hne. unfold cellAt, setCell.
  destruct (decide (r = x)) as [->|Hr].
  - rewrite list_lookup_alter_eq. destruct (sq !! x) as [row|]; [|done]. cbn.
    apply list_lookup_insert_ne. by destruct Hne.
  - by rewrite list_lookup_alter_ne.
Qed.

Lemma isSquare_writeRow n newRow : forall sq x y,
  isSquare n sq -> isSquare n (writeRow sq x y newRow).
Proof.
  induction newRow as [|v rest IH]; intros sq x y Hsq; cbn; [done|].
  by apply IH, isSquare_setCell.
Qed.

Lemma isSquare_writeCol n newCol : forall sq x y,
  isSquare n sq -> isSquare n (writeCol sq x y newCol).
Proof.
  induction newCol as [|v rest IH]; intros sq x y Hsq; cbn; [done|].
  by apply IH, isSquare_setCell.
Qed.

(** A row slice written from column [y] on leaves the columns before [y]
    and the other rows as they are. *)
Lemma cellAt_writeRow newRow : forall sq x y (r c : nat),
  r <> x \/ (c < y)%nat ->
  cellAt (writeRow sq x y newRow) r c = cellAt sq r c.
Proof.
  induction newRow as [|v rest IH]; intros sq x y r c Hne; cbn; [done|].
  rewrite IH by lia. apply cellAt_setCell_other. lia.
Qed.

(** A column slice written from row [x] on leaves the rows before [x] and
    the other columns as they are. *)
Lemma cellAt_writeCol newCol : forall sq x y (r c : nat),
  c <> y \/ (r < x)%nat ->
  cellAt (writeCol sq x y newCol) r c = cellAt sq r c.
Proof.
  induction newCol as [|v rest IH]; intros sq x y r c Hne; cbn; [done|].
  rewrite IH by lia. apply cellAt_setCell_other. lia.
Qed.

End SquareFacts.

(** ** The extension keeps the original quadrant *)

Section Rsmt2dFacts.
Context {Tree : Type}.
Implicit Types (ds eds : ExtendedDataSquare Tree) (codec : Codec).

Lemma preserved_refl ds : preserved ds ds.
Proof. unfold preserved. by split_and!. Qed.

Lemma preserved_trans ds1 ds2 ds3 :
  preserved ds1 ds2 -> preserved ds2 ds3 -> preserved ds1 ds3.
Proof.
  intros (Hw & Hc & Ho & Hsq & Hcell) (Hw' & Hc' & Ho' & Hsq' & Hcell').
  unfold preserved. split_and!; try congruence.
  - intros H. rewrite <- Hw. apply Hsq'. rewrite Hw. by apply Hsq.
  - intros r c Hr Hcc. rewrite Hcell' by (rewrite Ho; done). by apply Hcell.
Qed.

Lemma setRowSlice_preserved ds x y newRow ds' :
  setRowSlice ds x y newRow = inr ds' ->
  (originalDataWidth ds <= y)%nat ->
  preserved ds ds'.
Proof.
  unfold setRowSlice. destruct (uneven ds newRow); [done|].
  intros [= <-] Hy. unfold preserved. split_and!; cbn; try done.
  - by apply isSquare_writeRow.
  - intros r c Hr Hc. apply cellAt_writeRow. lia.
Qed.

Lemma setColSlice_preserved ds x y newCol ds' :
  setColSlice ds x y newCol = inr ds' ->
  (originalDataWidth ds <= x)%nat ->
  preserved ds ds'.
Proof.
  unfold setColSlice. destruct (uneven ds newCol); [done|].
  intros [= <-] Hx. unfold preserved. split_and!; cbn; try done.
  - by apply isSquare_writeCol.
  - intros r c Hr Hc. apply cellAt_writeCol. lia.
Qed.

Lemma erasureExtendRow_preserved codec eds i eds' :
  erasureExtendRow codec eds i = Done (inr eds') -> preserved eds eds'.
Proof.
  unfold erasureExtendRow.
  destruct (Encode codec _) as [msg|parityShares]; [done|].
  destruct (firstShares _ parityShares) as [shares|p]; [|done]. cbn.
  intros [= H]. by eapply setRowSlice_preserved.
Qed.

Lemma erasureExtendCol_preserved codec eds i eds' :
  erasureExtendCol codec eds i = Done (inr eds') -> preserved eds eds'.
Proof.
  unfold erasureExtendCol.
  destruct (Encode codec _) as [msg|parityShares]; [done|].
  destruct (firstShares _ parityShares) as [shares|p]; [|done]. cbn.
  intros [= H]. by eapply setColSlice_preserved.
Qed.

Lemma extendEach_preserved (step : _ -> nat -> run (string + ExtendedDataSquare Tree))
    (idxs : list nat) :
  (forall eds i eds', step eds i = Done (inr eds') -> preserved eds eds') ->
  forall eds eds',
    extendEach step eds idxs = Done (inr eds') -> preserved eds eds'.
Proof.
  intros Hstep. induction idxs as [|i rest IH]; intros eds eds'; cbn.
  - intros [= <-]. apply preserved_refl.
  - destruct (step eds i) as [[msg|eds1]|p] eqn:Hi; cbn; [done| |done].
    intros Hrest. eapply preserved_trans; [by eapply Hstep|by apply IH].
Qed.

Lemma ceilSqrt_nonneg (n : Z) : 0 <= ceilSqrt n.
Proof.
  unfold ceilSqrt. pose proof (Z.sqrt_nonneg n).
  destruct (Z.eqb _ _); lia.
Qed.

Lemma newDataSquare_inv data (tree : Tree) (cs : nat) ds :
  newDataSquare data tree cs = inr ds ->
  exists k : nat,
    length data = (k * k)%nat /\
    ds = mkEDS (rowsOf k k data) k cs 0 tree /\
    Forall (fun d => length d = cs) data.
Proof.
  unfold newDataSquare. set (w := ceilSqrt (Z.of_nat (length data))).
  destruct (Z.eqb_spec (w * w) (Z.of_nat (length data))) as [Hw|]; [|done]. cbn.
  match goal with
  | |- context [forallb ?f data] => destruct (forallb f data) eqn:Hall; cbn; [|done]
  end.
  intros [= <-].
  pose proof (ceilSqrt_nonneg (Z.of_nat (length data))) as Hpos. fold w in Hpos.
  exists (Z.to_nat w). split; [nia|]. split; [done|].
  apply Forall_forall. intros d Hd.
  rewrite forallb_forall in Hall. apply Nat.eqb_eq. by apply Hall.
Qed.

Lemma extendSquare_inv ds (n : nat) filler ds' :
  extendSquare ds n filler = inr ds' ->
  isSquare (width ds) (squareRow ds) ->
  width ds' = (width ds + n)%nat /\
  chunkSize ds' = chunkSize ds /\
  originalDataWidth ds' = originalDataWidth ds /\
  createTreeFn ds' = createTreeFn ds /\
  isSquare (width ds + n) (squareRow ds') /\
  forall r c : nat, (r < width ds)%nat -> (c < width ds)%nat ->
    cellAt (squareRow ds') r c = cellAt (squareRow ds) r c.
Proof.
  unfold extendSquare. destruct (negb _); [done|]. intros [= <-] [Hlen Hrows]. cbn.
  split_and!; try done.
  - split.
    + rewrite length_app, length_fmap, length_replicate. lia.
    + apply Forall_app. split.
      * apply Forall_fmap. eapply Forall_impl; [|exact Hrows].
        intros row Hrow. cbn in *. rewrite length_app, length_replicate. lia.
      * apply Forall_replicate. by rewrite length_replicate.
  - intros r c Hr Hc. unfold cellAt.
    rewrite lookup_app_l by (rewrite length_fmap; lia).
    rewrite list_lookup_fmap.
    destruct (squareRow ds !! r) as [row|] eqn:Hrow; [|done]. cbn.
    apply lookup_app_l. rewrite (Forall_lookup_1 _ _ _ _ Hrows Hrow). lia.
Qed.

Lemma erasureExtendSquare_inv codec ds eds :
  erasureExtendSquare codec ds = Done (inr eds) ->
  isSquare (width ds) (squareRow ds) ->
  width eds = (width ds + width ds)%nat /\
  chunkSize eds = chunkSize ds /\
  originalDataWidth eds = width ds /\
  isSquare (width ds + width ds) (squareRow eds) /\
  forall r c : nat, (r < width ds)%nat -> (c < width ds)%nat ->
    cellAt (squareRow eds) r c = cellAt (squareRow ds) r c.
Proof.
  unfold erasureExtendSquare. intros Hrun Hsq.
  destruct (extendSquare _ _ _) as [msg|eds1] eqn:H1; [done|].
  apply extendSquare_inv in H1 as (Hw1 & Hc1 & Ho1 & _ & Hsq1 & Hcell1); [|done].
  cbn in Hw1, Hc1, Ho1, Hsq1, Hcell1.
  destruct (extendEach _ eds1 _) as [[msg|eds2]|p] eqn:H2; cbn in Hrun; [done| |done].
  apply extendEach_preserved in H2 as P2.
  2:{ intros e i e' He.
      destruct (erasureExtendRow codec e i) as [[msg|e1]|p] eqn:Hr; cbn in He;
        [done| |done].
      eapply preserved_trans; [by eapply erasureExtendRow_preserved|].
      by eapply erasureExtendCol_preserved. }
  apply extendEach_preserved in Hrun as P3;
    [|intros e i e'; apply erasureExtendRow_preserved].
  pose proof (preserved_trans _ _ _ P2 P3) as (Hw & Hc & Ho & Hsq' & Hcell).
  rewrite Hw1 in Hw, Hsq'. rewrite Ho1 in Ho, Hcell.
  split_and!; try congruence.
  - by apply Hsq'.
  - intros r c Hr Hcc. rewrite Hcell by done. by apply Hcell1.
Qed.

(** What [ComputeExtendedDataSquare] returns when it returns a square, for
    every codec: a square of twice the width of the data, whose shares
    have the size of the shares of the data, and whose upper left quadrant
    holds the data row by row. *)
Lemma ComputeExtendedDataSquare_inv data codec (tree : Tree) eds :
  ComputeExtendedDataSquare data codec tree = Done (inr eds) ->
  exists k : nat,
    length data = (k * k)%nat /\
    width eds = (k + k)%nat /\
    originalDataWidth eds = k /\
    isSquare (k + k) (squareRow eds) /\
    Forall (fun d => length d = chunkSize eds) data /\
    forall r c : nat, (r < k)%nat -> (c < k)%nat ->
      cellAt (squareRow eds) r c = data !! (r * k + c)%nat.
Proof.
  unfold ComputeExtendedDataSquare. destruct (Z.ltb _ _); [done|].
  destruct data as [|d data']; [done|]. set (data := d :: data').
  destruct (ValidateChunkSize codec _) as [msg|]; [done|].
  destruct (newDataSquare data tree (length d)) as [msg|ds] eqn:Hnew; [done|].
  apply newDataSquare_inv in Hnew as (k & Hlen & -> & Hsize). intros Hrun.
  apply erasureExtendSquare_inv in Hrun as (Hw & Hc & Ho & Hsq & Hcell);
    [|by apply isSquare_rowsOf].
  cbn in Hw, Hc, Ho, Hsq, Hcell. exists k. split_and!; try done.
  - by rewrite Hc.
  - intros r c Hr Hcc. rewrite Hcell by done. by apply cellAt_rowsOf.
Qed.

Lemma copyCell_whole (n : nat) (cell : bytes) : length cell = n -> copyCell n cell = cell.
Proof.
  intros <-. unfold copyCell. rewrite firstn_all, Nat.sub_diag. apply app_nil_r.
Qed.

Lemma elementAt_inside {A} (l : list A) (i : Z) :
  0 <= i < Z.of_nat (length l) ->
  exists a, l !! Z.to_nat i = Some a /\ elementAt l i = Done a.
Proof.
  intros Hi. unfold elementAt.
  destruct (Z.leb_spec (Z.of_nat (length l)) i) as [|_]; [lia|].
  destruct (l !! Z.to_nat i) as [a|] eqn:Ha; [by exists a|].
  apply lookup_ge_None in Ha. lia.
Qed.

Lemma elementAt_outside {A} (l : list A) (i : Z) :
  Z.of_nat (length l) <= i ->
  elementAt l i = Panicked (IndexOutOfRange i (Z.of_nat (length l))).
Proof.
  intros Hi. unfold elementAt.
  by destruct (Z.leb_spec (Z.of_nat (length l)) i) as [_|]; [|lia].
Qed.

(** [GetCell] within a square and beyond it. *)
Lemma GetCell_inside ds (n : nat) (rowIdx colIdx : Z) :
  isSquare n (squareRow ds) ->
  0 <= rowIdx < Z.of_nat n -> 0 <= colIdx < Z.of_nat n ->
  exists cell,
    cellAt (squareRow ds) (Z.to_nat rowIdx) (Z.to_nat colIdx) = Some cell /\
    GetCell ds rowIdx colIdx = Done (copyCell (chunkSize ds) cell).
Proof.
  intros [Hlen Hrows] Hr Hc. unfold GetCell, cellAt.
  destruct (elementAt_inside (squareRow ds) rowIdx) as (row & Hrow & ->); [lia|].
  pose proof (Forall_lookup_1 _ _ _ _ Hrows Hrow) as Hrowlen. cbn in Hrowlen.
  destruct (elementAt_inside row colIdx) as (cell & Hcell & Hget); [lia|].
  exists cell. rewrite Hrow. cbn. by rewrite Hget.
Qed.

Lemma GetCell_outside ds (n : nat) (rowIdx colIdx : Z) :
  isSquare n (squareRow ds) ->
  0 <= rowIdx -> 0 <= colIdx ->
  (Z.of_nat n <= rowIdx ->
   GetCell ds rowIdx colIdx = Panicked (IndexOutOfRange rowIdx (Z.of_nat n))) /\
  (rowIdx < Z.of_nat n -> Z.of_nat n <= colIdx ->
   GetCell ds rowIdx colIdx = Panicked (IndexOutOfRange colIdx (Z.of_nat n))).
Proof.
  intros [Hlen Hrows] Hr Hc. unfold GetCell. split.
  - intros Hge. rewrite elementAt_outside by lia. by rewrite Hlen.
  - intros Hlt Hge.
    destruct (elementAt_inside (squareRow ds) rowIdx) as (row & Hrow & ->); [lia|].
    pose proof (Forall_lookup_1 _ _ _ _ Hrows Hrow) as Hrowlen. cbn in Hrowlen.
    cbn. rewrite elementAt_outside by lia. by rewrite Hrowlen.
Qed.

End Rsmt2dFacts.

(** ** The extension of a list of shares *)

Section ExtensionClaims.
Context `{Lib : SquareLibs}.
Local Open Scope run_scope.

Lemma extendShares_not_power (s : list bytes) options :
  IsPowerOfTwo (Z.of_nat (length s)) = false ->
  extendShares s options =
    ([], Done (None, Some (ErrNotPowerOfTwo (Z.of_nat (length s))))).
Proof. intros H. unfold extendShares. by rewrite H. Qed.

Lemma extendShares_power (s : list bytes) options :
  IsPowerOfTwo (Z.of_nat (length s)) = true ->
  extendShares s options =
    ([rsmt2d_ComputeExtendedDataSquare],
     r <- ComputeExtendedDataSquare s DefaultCodec
            (NewConstructor (uint64 (Size (Z.of_nat (length s)))) options) ;;
     Done (of_sum r)).
Proof. intros H. unfold extendShares. by rewrite H. Qed.

(** A square returned by [extendShares] is one returned by the coder. *)
Lemma extendShares_square (s : list bytes) options eds :
  result (extendShares s options) = Done (Some eds, None) ->
  ComputeExtendedDataSquare s DefaultCodec
    (NewConstructor (uint64 (Size (Z.of_nat (length s)))) options) = Done (inr eds).
Proof.
  unfold extendShares. destruct (IsPowerOfTwo _); cbn; [|done].
  destruct (ComputeExtendedDataSquare _ _ _) as [[msg|eds']|p]; cbn; [done| |done].
  by intros [= ->].
Qed.

(** C5: [extendShares] returns its own error, the one that says that the
    number of shares is not a power of two, exactly when the number of
    shares is not a power of two, and then without a call to the coder;
    when it is a power of two the result is the one of the coder. *)
Theorem extendShares_power_of_two (s : list bytes) options :
  ((exists got,
      result (extendShares s options) = Done (None, Some (ErrNotPowerOfTwo got)))
   <-> ~ (exists k, 0 <= k /\ Z.of_nat (length s) = 2 ^ k)) /\
  (~ (exists k, 0 <= k /\ Z.of_nat (length s) = 2 ^ k) ->
   extendShares s options =
     ([], Done (None, Some (ErrNotPowerOfTwo (Z.of_nat (length s)))))) /\
  ((exists k, 0 <= k /\ Z.of_nat (length s) = 2 ^ k) ->
   extendShares s options =
     ([rsmt2d_ComputeExtendedDataSquare],
      r <- ComputeExtendedDataSquare s DefaultCodec
             (NewConstructor (uint64 (Size (Z.of_nat (length s)))) options) ;;
      Done (of_sum r))).
Proof.
  pose proof (IsPowerOfTwo_spec (Z.of_nat (length s)) (Nat2Z.is_nonneg _)) as Hspec.
  destruct (IsPowerOfTwo (Z.of_nat (length s))) eqn:Hpow.
  - assert (Hk : exists k, 0 <= k /\ Z.of_nat (length s) = 2 ^ k) by (by apply Hspec).
    split_and!; [|done|intros _; by apply extendShares_power].
    split; [|done]. intros [got Hgot].
    rewrite extendShares_power in Hgot by done. cbn in Hgot.
    destruct (ComputeExtendedDataSquare _ _ _) as [[msg|eds]|p]; by cbn in Hgot.
  - assert (Hk : ~ exists k, 0 <= k /\ Z.of_nat (length s) = 2 ^ k).
    { intros Hk. apply Hspec in Hk. congruence. }
    split_and!; [|intros _; by apply extendShares_not_power|done].
    split; [done|]. intros _. exists (Z.of_nat (length s)).
    by rewrite extendShares_not_power.
Qed.

(** C6: the square [extendShares] returns for [k * k] shares has the
    width [2 k], and [GetCell] on a row and a column below [k] returns the
    share of the data at that row and column. *)
Theorem extendShares_systematic (s : list bytes) options eds :
  result (extendShares s options) = Done (Some eds, None) ->
  exists k : nat,
    length s = (k * k)%nat /\
    width eds = (2 * k)%nat /\
    forall r c : nat, (r < k)%nat -> (c < k)%nat ->
      exists share,
        s !! (r * k + c)%nat = Some share /\
        GetCell eds (Z.of_nat r) (Z.of_nat c) = Done share.
Proof.
  intros Hrun. apply extendShares_square in Hrun.
  apply ComputeExtendedDataSquare_inv in Hrun
    as (k & Hlen & Hw & _ & Hsq & Hsize & Hcell).
  exists k. split_and!; [done|lia|]. intros r c Hr Hc.
  destruct (GetCell_inside eds (k + k) (Z.of_nat r) (Z.of_nat c))
    as (cell & Hat & Hget); [done|lia|lia|].
  rewrite !Nat2Z.id, Hcell in Hat by done.
  exists cell. split; [done|]. rewrite Hget. f_equal.
  apply copyCell_whole.
  by eapply (Forall_lookup_1 _ _ _ _ Hsize Hat).
Qed.

(** C3, as the code has it: on a square returned by [extendShares], of
    width [2 k], [GetCell] returns a share for a row and a column below
    [2 k]; for a row or a column from [2 k] on it returns nothing, neither
    a share nor an error: the indexing panics. *)
Theorem GetCell_bounds (s : list bytes) options eds :
  result (extendShares s options) = Done (Some eds, None) ->
  exists k : nat,
    length s = (k * k)%nat /\
    width eds = (2 * k)%nat /\
    (forall row col : Z,
       0 <= row < 2 * Z.of_nat k -> 0 <= col < 2 * Z.of_nat k ->
       exists share, GetCell eds row col = Done share) /\
    (forall row col : Z,
       0 <= row -> 0 <= col ->
       (2 * Z.of_nat k <= row ->
        GetCell eds row col = Panicked (IndexOutOfRange row (2 * Z.of_nat k))) /\
       (row < 2 * Z.of_nat k -> 2 * Z.of_nat k <= col ->
        GetCell eds row col = Panicked (IndexOutOfRange col (2 * Z.of_nat k)))).
Proof.
  intros Hrun. apply extendShares_square in Hrun.
  apply ComputeExtendedDataSquare_inv in Hrun
    as (k & Hlen & Hw & _ & Hsq & _ & _).
  exists k. split_and!; [done|lia| |].
  - intros row col Hr Hc.
    destruct (GetCell_inside eds (k + k) row col) as (cell & _ & Hget);
      [done|lia|lia|]. by eexists.
  - intros row col Hr Hc.
    destruct (GetCell_outside eds (k + k) row col Hsq Hr Hc) as [Hrow Hcol].
    replace (2 * Z.of_nat k) with (Z.of_nat (k + k)) by lia. by split.
Qed.

End ExtensionClaims.

(** ** The empty block *)

Section EmptyBlock.
Context `{Lib : SquareLibs}.

(** C2, what the code does: for a block that is empty by the predicate of
    the protocol, [extendBlock] returns the square [share.EmptyEDS()]
    points to and not [nil], so that [makeExtendedHeader] does not take
    its [nil] case: its only call is to [da.NewDataAvailabilityHeader],
    which builds the trees of the rows and of the columns, and the header
    (or the error) is the one that call returns. *)
Theorem extendBlock_empty_builds_trees (data : types_Data) (appVersion : Z)
    options h comm vals :
  IsEmptyBlockRef data appVersion = true ->
  extendBlock data appVersion options = ([share_EmptyEDS], Done (Some EmptyEDS, None)) /\
  calls (makeExtendedHeader h comm vals (Some EmptyEDS)) = [da_NewDataAvailabilityHeader] /\
  result (makeExtendedHeader h comm vals (Some EmptyEDS)) =
    match NewDataAvailabilityHeader EmptyEDS with
    | inl msg => (None, Some (ErrDependency msg))
    | inr dah =>
        (Some {| eh_Header := h; eh_DAH := dah;
                 eh_Commit := comm; eh_ValidatorSet := vals |}, None)
    end.
Proof.
  intros Hempty. unfold extendBlock, makeExtendedHeader. rewrite Hempty.
  by destruct (NewDataAvailabilityHeader EmptyEDS).
Qed.

(** The minimal header is only made for a [nil] square. *)
Lemma makeExtendedHeader_min h comm vals eds :
  da_MinDataAvailabilityHeader ∈ calls (makeExtendedHeader h comm vals eds) <->
  eds = None.
Proof.
  unfold makeExtendedHeader. destruct eds as [eds|]; cbn.
  - destruct (NewDataAvailabilityHeader eds); cbn; split; try done;
      by intros ?%list_elem_of_singleton.
  - split; [done|]. intros _. by apply list_elem_of_singleton.
Qed.

End EmptyBlock.

(** ** The command line *)

Section MainFacts.
Context `{Lib : SquareLibs} `{Net : !Node}.
Local Open Scope string_scope.

(** [main] up to the dispatch on the command. *)
Lemma main_dial_error (ip : string) (rest : list string) msg :
  grpc_NewClient ip = inl msg ->
  runMain (ip :: rest) = (Exit 1, [PrintError (ErrDependency msg)]).
Proof.
  intros Hdial. unfold runMain, main, io_bind, NewCoreAccessor. cbn.
  by rewrite Hdial.
Qed.

Lemma main_one_argument_crash (ip : string) conn :
  grpc_NewClient ip = inr conn ->
  runMain [ip] = (Crash (IndexOutOfRange 1 1), []).
Proof.
  intros Hdial. unfold runMain, main, io_bind, NewCoreAccessor. cbn.
  by rewrite Hdial.
Qed.

Lemma main_unrecognized (ip cmd : string) (rest : list string) conn :
  grpc_NewClient ip = inr conn ->
  cmd <> "eds" -> cmd <> "share" -> cmd <> "blob" -> cmd <> "block" ->
  runMain (ip :: cmd :: rest) = (Exit 0, []).
Proof.
  intros Hdial H1 H2 H3 H4. unfold runMain, main, io_bind, NewCoreAccessor. cbn.
  rewrite Hdial. cbn.
  apply String.eqb_neq in H1, H2, H3, H4. by rewrite H1, H2, H3, H4.
Qed.

Lemma main_blob (ip : string) (rest : list string) conn :
  grpc_NewClient ip = inr conn ->
  runMain (ip :: "blob" :: rest) = (Exit 0, [PrintString "blob"]).
Proof.
  intros Hdial. unfold runMain, main, io_bind, NewCoreAccessor. cbn.
  by rewrite Hdial.
Qed.

Lemma main_block (ip h : string) (rest : list string) conn r :
  grpc_NewClient ip = inr conn ->
  getSignedBlock {| client := conn |} h = Done r ->
  runMain (ip :: "block" :: h :: rest) =
    match r with
    | (_, Some e) => (Exit 1, [PrintString "block"; PrintError e])
    | (block, None) => (Exit 0, [PrintString "block"; PrintBlock block])
    end.
Proof.
  intros Hdial Hget. unfold runMain, main, io_bind, NewCoreAccessor. cbn.
  rewrite Hdial. cbn. rewrite Hget. by destruct r as [block [e|]].
Qed.

Lemma main_block_stage (ip cmd h : string) (rest : list string) conn block e :
  grpc_NewClient ip = inr conn ->
  cmd = "eds" \/ cmd = "share" \/ cmd = "block" ->
  getSignedBlock {| client := conn |} h = Done (block, Some e) ->
  runMain (ip :: cmd :: h :: rest) = (Exit 1, [PrintString cmd; PrintError e]).
Proof.
  intros Hdial Hcmd Hget. unfold runMain, main, io_bind, NewCoreAccessor. cbn.
  rewrite Hdial. by destruct Hcmd as [->|[->| ->]]; cbn; rewrite Hget.
Qed.

Lemma main_extend_stage (ip cmd h : string) (rest : list string) conn block eds e :
  grpc_NewClient ip = inr conn ->
  cmd = "eds" \/ cmd = "share" ->
  getSignedBlock {| client := conn |} h = Done (Some block, None) ->
  result (extendBlock (sb_Data block) (Version_App (sb_Header block)) []) =
    Done (eds, Some e) ->
  runMain (ip :: cmd :: h :: rest) = (Exit 1, [PrintString cmd; PrintError e]).
Proof.
  intros Hdial Hcmd Hget Hext. unfold runMain, main, io_bind, NewCoreAccessor. cbn.
  rewrite Hdial. by destruct Hcmd as [->| ->]; cbn; rewrite Hget; cbn; rewrite Hext.
Qed.

Lemma main_eds (ip h : string) (rest : list string) conn block eds :
  grpc_NewClient ip = inr conn ->
  getSignedBlock {| client := conn |} h = Done (Some block, None) ->
  result (extendBlock (sb_Data block) (Version_App (sb_Header block)) []) =
    Done (eds, None) ->
  runMain (ip :: "eds" :: h :: rest) =
    match result (makeExtendedHeader (sb_Header block) (sb_Commit block)
                    (sb_ValidatorSet block) eds) with
    | (_, Some e) => (Exit 1, [PrintString "eds"; PrintError e])
    | (eh, None) => (Exit 0, [PrintString "eds"; PrintExtendedHeader eh])
    end.
Proof.
  intros Hdial Hget Hext. unfold runMain, main, io_bind, NewCoreAccessor. cbn.
  rewrite Hdial. cbn. rewrite Hget. cbn. rewrite Hext. cbn.
  by destruct (result (makeExtendedHeader _ _ _ _)) as [eh [e|]].
Qed.

Lemma main_share (ip h a3 a4 : string) (rest : list string) conn block eds :
  grpc_NewClient ip = inr conn ->
  getSignedBlock {| client := conn |} h = Done (Some block, None) ->
  result (extendBlock (sb_Data block) (Version_App (sb_Header block)) []) =
    Done (Some eds, None) ->
  runMain (ip :: "share" :: h :: a3 :: a4 :: rest) =
    match Atoi a3 with
    | inl msg => (Exit 1, [PrintString "share"; PrintError (ErrDependency msg)])
    | inr r =>
        match Atoi a4 with
        | inl msg => (Exit 1, [PrintString "share"; PrintError (ErrDependency msg)])
        | inr c =>
            match GetCell eds (uint64 r) (uint64 c) with
            | Done cell => (Exit 0, [PrintString "share"; PrintShare cell])
            | Panicked p => (Crash p, [PrintString "share"])
            end
        end
    end.
Proof.
  intros Hdial Hget Hext. unfold runMain, main, io_bind, NewCoreAccessor. cbn.
  rewrite Hdial. cbn. rewrite Hget. cbn. rewrite Hext. cbn.
  destruct (Atoi a3) as [msg|r]; cbn; [done|].
  destruct (Atoi a4) as [msg|c]; cbn; [done|].
  by destruct (GetCell eds (uint64 r) (uint64 c)).
Qed.

(** C9, as the code has it: with two arguments or more, an error of the
    dialing is printed and the status is 1 whatever the command; once the
    dialing has succeeded, an unrecognized command and [blob] end with
    status 0; for [block], [eds] and [share] with their height argument,
    an error returned by a stage (the parsing of the height, the call,
    the reassembly, the extension, the construction of the header, the
    parsing of an index) is printed and the status is 1, and the status is
    0 when every stage has returned without an error and, for [share],
    [GetCell] has returned the share. *)
Theorem main_exit_codes (ip cmd : string) (rest : list string) :
  (forall msg,
     grpc_NewClient ip = inl msg ->
     runMain (ip :: cmd :: rest) = (Exit 1, [PrintError (ErrDependency msg)])) /\
  (forall conn,
     grpc_NewClient ip = inr conn ->
     (cmd <> "eds" -> cmd <> "share" -> cmd <> "blob" -> cmd <> "block" ->
      runMain (ip :: cmd :: rest) = (Exit 0, [])) /\
     (cmd = "blob" -> runMain (ip :: cmd :: rest) = (Exit 0, [PrintString "blob"])) /\
     (forall h more,
        rest = h :: more ->
        (forall block e,
           cmd = "eds" \/ cmd = "share" \/ cmd = "block" ->
           getSignedBlock {| client := conn |} h = Done (block, Some e) ->
           runMain (ip :: cmd :: rest) = (Exit 1, [PrintString cmd; PrintError e])) /\
        (forall block,
           cmd = "block" ->
           getSignedBlock {| client := conn |} h = Done (block, None) ->
           runMain (ip :: cmd :: rest) =
             (Exit 0, [PrintString "block"; PrintBlock block])) /\
        (forall block,
           getSignedBlock {| client := conn |} h = Done (Some block, None) ->
           (forall eds e,
              cmd = "eds" \/ cmd = "share" ->
              result (extendBlock (sb_Data block) (Version_App (sb_Header block)) [])
                = Done (eds, Some e) ->
              runMain (ip :: cmd :: rest) = (Exit 1, [PrintString cmd; PrintError e])) /\
           (forall eds,
              cmd = "eds" ->
              result (extendBlock (sb_Data block) (Version_App (sb_Header block)) [])
                = Done (eds, None) ->
              (forall eh e,
                 result (makeExtendedHeader (sb_Header block) (sb_Commit block)
                           (sb_ValidatorSet block) eds) = (eh, Some e) ->
                 runMain (ip :: cmd :: rest) =
                   (Exit 1, [PrintString "eds"; PrintError e])) /\
              (forall eh,
                 result (makeExtendedHeader (sb_Header block) (sb_Commit block)
                           (sb_ValidatorSet block) eds) = (eh, None) ->
                 runMain (ip :: cmd :: rest) =
                   (Exit 0, [PrintString "eds"; PrintExtendedHeader eh]))) /\
           (forall eds a3 a4 more',
              cmd = "share" ->
              result (extendBlock (sb_Data block) (Version_App (sb_Header block)) [])
                = Done (Some eds, None) ->
              more = a3 :: a4 :: more' ->
              (forall msg,
                 Atoi a3 = inl msg ->
                 runMain (ip :: cmd :: rest) =
                   (Exit 1, [PrintString "share"; PrintError (ErrDependency msg)])) /\
              (forall r msg,
                 Atoi a3 = inr r -> Atoi a4 = inl msg ->
                 runMain (ip :: cmd :: rest) =
                   (Exit 1, [PrintString "share"; PrintError (ErrDependency msg)])) /\
              (forall r c cell,
                 Atoi a3 = inr r -> Atoi a4 = inr c ->
                 GetCell eds (uint64 r) (uint64 c) = Done cell ->
                 runMain (ip :: cmd :: rest) =
                   (Exit 0, [PrintString "share"; PrintShare cell])))))).
Proof.
  split; [intros msg Hdial; by apply main_dial_error|].
  intros conn Hdial. split_and!.
  - intros. by eapply main_unrecognized.
  - intros ->. by eapply main_blob.
  - intros h more ->. split_and!.
    + intros block e Hcmd Hget. by eapply main_block_stage.
    + intros block -> Hget. by rewrite (main_block _ _ _ _ _ Hdial Hget).
    + intros block Hget. split_and!.
      * intros eds e Hcmd Hext. by eapply main_extend_stage.
      * intros eds -> Hext. rewrite (main_eds _ _ _ _ _ _ Hdial Hget Hext).
        split; [intros eh e ->|intros eh ->]; done.
      * intros eds a3 a4 more' -> Hext ->.
        rewrite (main_share _ _ _ _ _ _ _ _ Hdial Hget Hext).
        split_and!.
        -- by intros msg ->.
        -- by intros r msg -> ->.
        -- by intros r c cell -> -> ->.
Qed.

(** C10: with the address as the only argument and a dialing that
    succeeds, [main] reads [args[1]] beyond the end of the arguments and
    panics, with nothing printed: the process ends neither with status 0
    nor with status 1. *)
Theorem main_one_argument (ip : string) conn :
  grpc_NewClient ip = inr conn ->
  runMain [ip] = (Crash (IndexOutOfRange 1 1), []) /\
  forall code out, runMain [ip] <> (Exit code, out).
Proof.
  intros Hdial. rewrite (main_one_argument_crash ip conn Hdial). by split.
Qed.

End MainFacts.

(** ** The claims on the sample node *)

Section SampleRuns.
#[local] Existing Instance Sample.decoders.
#[local] Existing Instance SampleNode.libs.
#[local] Existing Instance SampleNode.node.
Local Open Scope string_scope.

Lemma extendShares_systematic_witness :
  exists k : nat,
    length SampleNode.fourShares = (k * k)%nat /\
    width SampleNode.extended4 = (2 * k)%nat /\
    forall r c : nat, (r < k)%nat -> (c < k)%nat ->
      exists share,
        SampleNode.fourShares !! (r * k + c)%nat = Some share /\
        GetCell SampleNode.extended4 (Z.of_nat r) (Z.of_nat c) = Done share.
Proof.
  apply (extendShares_systematic (Lib := SampleNode.libs) SampleNode.fourShares [] SampleNode.extended4).
  reflexivity.
Defined.

Lemma GetCell_bounds_witness :
  exists k : nat,
    length SampleNode.fourShares = (k * k)%nat /\
    width SampleNode.extended4 = (2 * k)%nat /\
    (forall row col : Z,
       0 <= row < 2 * Z.of_nat k -> 0 <= col < 2 * Z.of_nat k ->
       exists share, GetCell SampleNode.extended4 row col = Done share) /\
    (forall row col : Z,
       0 <= row -> 0 <= col ->
       (2 * Z.of_nat k <= row ->
        GetCell SampleNode.extended4 row col =
          Panicked (IndexOutOfRange row (2 * Z.of_nat k))) /\
       (row < 2 * Z.of_nat k -> 2 * Z.of_nat k <= col ->
        GetCell SampleNode.extended4 row col =
          Panicked (IndexOutOfRange col (2 * Z.of_nat k)))).
Proof.
  apply (GetCell_bounds (Lib := SampleNode.libs) SampleNode.fourShares [] SampleNode.extended4).
  reflexivity.
Defined.

(** C3 as the specification states it fails: on the square of four shares,
    of width 4, row 4 is not answered with an error, the access panics,
    and so does the process on the command line. *)
Lemma GetCell_out_of_range_counterexample :
  result (extendShares SampleNode.fourShares []) =
    Done (Some SampleNode.extended4, None) /\
  width SampleNode.extended4 = 4%nat /\
  GetCell SampleNode.extended4 4 0 = Panicked (IndexOutOfRange 4 4) /\
  GetCell SampleNode.extended4 0 4 = Panicked (IndexOutOfRange 4 4) /\
  runMain ["node"; "share"; "1"; "4"; "0"] =
    (Crash (IndexOutOfRange 4 4), [PrintString "share"]).
Proof. by split_and!. Qed.

Lemma extendBlock_empty_builds_trees_witness :
  extendBlock ([] : bytes) 3 [] = ([share_EmptyEDS], Done (Some EmptyEDS, None)) /\
  calls (makeExtendedHeader [Byte.x03] [Byte.x0c] [Byte.x0f] (Some EmptyEDS)) =
    [da_NewDataAvailabilityHeader] /\
  result (makeExtendedHeader [Byte.x03] [Byte.x0c] [Byte.x0f] (Some EmptyEDS)) =
    match NewDataAvailabilityHeader EmptyEDS with
    | inl msg => (None, Some (ErrDependency msg))
    | inr dah =>
        (Some {| eh_Header := [Byte.x03]; eh_DAH := dah;
                 eh_Commit := [Byte.x0c]; eh_ValidatorSet := [Byte.x0f] |}, None)
    end.
Proof.
  apply (extendBlock_empty_builds_trees (Lib := SampleNode.libs) ([] : bytes) 3 [] [Byte.x03] [Byte.x0c] [Byte.x0f]).
  reflexivity.
Defined.

(** C9 as the specification states it fails twice.  On [share] with a
    height and no index, the dialing, the parsing of the height, the
    reassembly and the extension succeed and the process panics.  On an
    unrecognized command with an address that cannot be dialed, the status
    is 1. *)
Lemma exit_status_counterexample :
  grpc_NewClient "node" = inr tt /\
  getSignedBlock {| client := tt |} "1" = Done (Some SampleNode.block1, None) /\
  result (extendBlock (sb_Data SampleNode.block1)
            (Version_App (sb_Header SampleNode.block1)) []) =
    Done (Some SampleNode.extended4, None) /\
  runMain ["node"; "share"; "1"] = (Crash (IndexOutOfRange 3 3), [PrintString "share"]) /\
  runMain [""; "zzz"] = (Exit 1, [PrintError (ErrDependency "empty target")]).
Proof. by split_and!. Qed.

Lemma main_exit_codes_witness :
  runMain ["node"; "eds"; "1"] =
    (Exit 0, [PrintString "eds"; PrintExtendedHeader (Some SampleNode.header1)]) /\
  runMain ["node"; "eds"; "3"] = (Exit 1, [PrintString "eds"; PrintError EOF]).
Proof.
  destruct (main_exit_codes (Lib := SampleNode.libs) (Net := SampleNode.node) "node" "eds" ["1"]) as [_ H].
  destruct (H tt eq_refl) as (_ & _ & H1).
  destruct (H1 "1" [] eq_refl) as (_ & _ & H2).
  destruct (H2 SampleNode.block1 eq_refl) as (_ & H3 & _).
  destruct (H3 (Some SampleNode.extended4) eq_refl eq_refl) as [_ H4].
  split; [exact (H4 (Some SampleNode.header1) eq_refl)|].
  destruct (main_exit_codes (Lib := SampleNode.libs) (Net := SampleNode.node) "node" "eds" ["3"]) as [_ H'].
  destruct (H' tt eq_refl) as (_ & _ & H1').
  destruct (H1' "3" [] eq_refl) as (H2' & _).
  exact (H2' None EOF (or_introl eq_refl) eq_refl).
Defined.

Lemma main_one_argument_witness :
  runMain ["node"] = (Crash (IndexOutOfRange 1 1), []) /\
  forall code out, runMain ["node"] <> (Exit code, out).
Proof. apply (main_one_argument (Lib := SampleNode.libs) (Net := SampleNode.node) "node" tt). reflexivity. Defined.

(** Two fragments that declare the same index: the part set refuses the
    second without an error, [partsToBlock] returns neither a block nor an
    error, and [receiveBlockByHeight] reads the header of the missing
    block. *)
Example duplicate_index_panics :
  partsToBlock [Some (mkPart 0 [Byte.x0a]); Some (mkPart 0 [Byte.x0b])] =
    Done (None, None) /\
  fst (receiveBlockByHeight
         {| pending := [Sample.firstFragment 0 [Byte.x0a] false;
                        Sample.fragment 0 [Byte.x0b] true];
            closing := EOF |}) = Panicked NilDereference.
Proof. by split. Qed.

(** A fragment that declares an index beyond the number of fragments. *)
Example index_beyond_total :
  partsToBlock [Some (mkPart 0 [Byte.x0a]); Some (mkPart 2 [Byte.x0b])] =
    Done (None, Some ErrPartSetUnexpectedIndex).
Proof. reflexivity. Qed.

(** Two shares are a power of two and not a square: the error is the
    coder's.  Three shares are refused by [extendShares] itself. *)
Example extendShares_two_shares :
  extendShares [[Byte.x0a; Byte.x00]; [Byte.x0b; Byte.x00]] [] =
    ([rsmt2d_ComputeExtendedDataSquare],
     Done (None, Some (ErrDependency "number of chunks must be a square number"))) /\
  extendShares [[Byte.x0a; Byte.x00]; [Byte.x0b; Byte.x00]; [Byte.x0c; Byte.x00]] [] =
    ([], Done (None, Some (ErrNotPowerOfTwo 3))).
Proof. by split. Qed.

(** On the sample node the header of the empty block has the value of the
    minimal header, and is obtained from the trees all the same. *)
Example empty_block_header :
  runMain ["node"; "eds"; "2"] =
    (Exit 0,
     [PrintString "eds";
      PrintExtendedHeader
        (Some {| eh_Header := [Byte.x03]; eh_Commit := [Byte.x0c];
                 eh_ValidatorSet := [Byte.x0f];
                 eh_DAH := MinDataAvailabilityHeader |})]) /\
  calls (makeExtendedHeader [Byte.x03] [Byte.x0c] [Byte.x0f] (Some EmptyEDS)) =
    [da_NewDataAvailabilityHeader].
Proof. by split. Qed.

End SampleRuns.

(** * Further facts *)

(** ** The part set under [partsToBlock] *)

Section PartsToBlockFacts.
Context `{Dec : Decoders}.

Lemma addParts_app (pre : list Part) (ops : list (option Part)) : forall partSet,
  addParts ((Some <$> pre) ++ ops) partSet =
    match addParts (Some <$> pre) partSet with
    | Done (Next partSet') => addParts ops partSet'
    | other => other
    end.
Proof.
  induction pre as [|p pre IH]; intros partSet; [done|].
  rewrite !fmap_cons, <- app_comm_cons. cbn [addParts].
  destruct (AddPartWithoutProof partSet _) as [[ok_ [e|]] partSet1]; [done|].
  destruct ok_; cbn [negb]; [apply IH|done].
Qed.

(** The loop never panics on parts that are all present, and when it
    returns, it returns the error of the index or nothing at all. *)
Lemma addParts_return (ps : list Part) : forall partSet,
  (exists partSet', addParts (Some <$> ps) partSet = Done (Next partSet')) \/
  addParts (Some <$> ps) partSet = Done (Return (None, Some ErrPartSetUnexpectedIndex)) \/
  addParts (Some <$> ps) partSet = Done (Return (None, None)).
Proof.
  induction ps as [|p ps IH]; intros partSet; [left; by eexists|].
  rewrite fmap_cons. cbn [addParts]. rewrite Part_eta.
  unfold AddPartWithoutProof.
  destruct (Z.leb _ _); [right; by left|].
  destruct (parts partSet !! _) as [[q|]|]; cbn; [right; by right|apply IH..].
Qed.

(** When the loop falls through, no index was declared twice, every
    index was within the set, and every slot it filled was free. *)
Lemma addParts_next_inv (ps : list Part) : forall partSet partSet',
  length (parts partSet) = Z.to_nat (total partSet) ->
  Forall (fun p => 0 <= Index p) ps ->
  addParts (Some <$> ps) partSet = Done (Next partSet') ->
  NoDup (Index <$> ps) /\
  forall p, p ∈ ps ->
    Index p < total partSet /\ parts partSet !! Z.to_nat (Index p) = Some None.
Proof.
  induction ps as [|p ps IH]; intros partSet partSet' Hwf Hpos Hrun.
  - split; [constructor|]. by intros p ?%elem_of_nil.
  - apply list.Forall_cons in Hpos as [Hp Hpos].
    rewrite fmap_cons in Hrun. cbn [addParts] in Hrun. rewrite Part_eta in Hrun.
    unfold AddPartWithoutProof in Hrun.
    destruct (Z.leb_spec (total partSet) (Index p)) as [|Hlt]; [done|].
    destruct (parts partSet !! Z.to_nat (Index p)) as [[q|]|] eqn:Hslot; [done| |].
    2:{ apply lookup_ge_None in Hslot. lia. }
    cbn [negb] in Hrun.
    apply IH in Hrun as [Hnd Hrest]; [|by cbn; rewrite length_insert|done].
    cbn [total parts] in Hrest.
    assert (Hfilled :
      <[Z.to_nat (Index p) := Some p]> (parts partSet) !! Z.to_nat (Index p)
        = Some (Some p)).
    { apply list_lookup_insert_eq. by eapply lookup_lt_Some. }
    assert (Hother : forall q, q ∈ ps -> Z.to_nat (Index q) <> Z.to_nat (Index p)).
    { intros q Hq Heq. destruct (Hrest q Hq) as [_ Hfree]. congruence. }
    split.
    + rewrite fmap_cons. apply list.NoDup_cons. split; [|done].
      intros (q & Heq & Hq)%list_elem_of_fmap. apply (Hother q Hq). by rewrite Heq.
    + intros q [->|Hq]%elem_of_cons; [done|].
      destruct (Hrest q Hq) as [Hlt' Hfree]. split; [done|].
      rewrite list_lookup_insert_ne in Hfree; [done|]. intros ?. by eapply Hother.
Qed.

(** Distinct numbers below [n], [n] of them, are the numbers below [n]. *)
Lemma distinct_below_all (l : list Z) :
  NoDup l ->
  (forall i, i ∈ l -> 0 <= i < Z.of_nat (length l)) ->
  l ≡ₚ seqZ 0 (Z.of_nat (length l)).
Proof.
  intros Hnd Hin. apply submseteq_length_Permutation.
  - apply NoDup_submseteq; [done|]. intros i Hi. apply elem_of_seqZ.
    specialize (Hin i Hi). lia.
  - rewrite length_seqZ. lia.
Qed.

Lemma addParts_next_present (ops : list (option Part)) : forall partSet partSet',
  addParts ops partSet = Done (Next partSet') -> exists ps, ops = Some <$> ps.
Proof.
  induction ops as [|[p|] ops IH]; intros partSet partSet' Hrun; [by exists []| |done].
  cbn [addParts] in Hrun.
  destruct (AddPartWithoutProof partSet _) as [[ok_ [e|]] partSet1]; [done|].
  destruct ok_; cbn [negb] in Hrun; [|done].
  apply IH in Hrun as [ps ->]. by exists (p :: ps).
Qed.

Lemma fresh_set_free (n : Z) (p : Part) :
  0 <= Index p < n ->
  parts (NewPartSetFromHeader n) !! Z.to_nat (Index p) = Some None.
Proof. intros Hp. cbn. apply lookup_replicate_2. lia. Qed.

(** The set after a run of parts with distinct indices below [n]. *)
Lemma addParts_prefix (pre : list Part) (n : Z) :
  NoDup (Index <$> pre) ->
  (forall q, q ∈ pre -> 0 <= Index q < n) ->
  exists partSet',
    addParts (Some <$> pre) (NewPartSetFromHeader n) = Done (Next partSet') /\
    total partSet' = n /\
    forall q, q ∈ pre -> parts partSet' !! Z.to_nat (Index q) = Some (Some q).
Proof.
  intros Hnd Hrange.
  destruct (addParts_fill pre (NewPartSetFromHeader n) Hnd)
    as (partSet' & Hrun & Htot & _ & _ & Hin & _).
  { intros q Hq. split; [by apply Hrange|]. apply fresh_set_free. by apply Hrange. }
  by exists partSet'.
Qed.

Lemma partsToBlock_beyond (pre post : list Part) (p : Part) :
  Z.of_nat (length (pre ++ p :: post)) < 2 ^ 32 ->
  NoDup (Index <$> pre) ->
  (forall q, q ∈ pre -> 0 <= Index q < Z.of_nat (length (pre ++ p :: post))) ->
  Z.of_nat (length (pre ++ p :: post)) <= Index p ->
  partsToBlock (Some <$> (pre ++ p :: post)) =
    Done (None, Some ErrPartSetUnexpectedIndex).
Proof.
  intros Hlen Hnd Hrange Hp. unfold partsToBlock, partsToBlock_bz.
  rewrite length_fmap, uint32_small by lia.
  destruct (addParts_prefix pre _ Hnd Hrange) as (partSet' & Hrun & Htot & _).
  rewrite fmap_app, addParts_app, Hrun, fmap_cons. cbn [addParts]. rewrite Part_eta.
  rewrite AddPartWithoutProof_beyond by lia. done.
Qed.

Lemma partsToBlock_twice (pre post : list Part) (p : Part) :
  Z.of_nat (length (pre ++ p :: post)) < 2 ^ 32 ->
  NoDup (Index <$> pre) ->
  (forall q, q ∈ pre -> 0 <= Index q < Z.of_nat (length (pre ++ p :: post))) ->
  Index p ∈ Index <$> pre ->
  partsToBlock (Some <$> (pre ++ p :: post)) = Done (None, None).
Proof.
  intros Hlen Hnd Hrange (q & Heq & Hq)%list_elem_of_fmap.
  unfold partsToBlock, partsToBlock_bz.
  rewrite length_fmap, uint32_small by lia.
  destruct (addParts_prefix pre _ Hnd Hrange) as (partSet' & Hrun & Htot & Hin).
  rewrite fmap_app, addParts_app, Hrun, fmap_cons. cbn [addParts]. rewrite Part_eta.
  rewrite (AddPartWithoutProof_taken partSet' p q).
  - done.
  - rewrite Htot, Heq. by apply Hrange.
  - rewrite Heq. by apply Hin.
Qed.

(** A missing part after parts with distinct indices within the set. *)
Lemma partsToBlock_missing (pre : list Part) (ops : list (option Part)) :
  Z.of_nat (length ((Some <$> pre) ++ None :: ops)) < 2 ^ 32 ->
  NoDup (Index <$> pre) ->
  (forall q, q ∈ pre ->
     0 <= Index q < Z.of_nat (length ((Some <$> pre) ++ None :: ops))) ->
  partsToBlock ((Some <$> pre) ++ None :: ops) = Panicked NilDereference.
Proof.
  intros Hlen Hnd Hrange. unfold partsToBlock, partsToBlock_bz.
  rewrite uint32_small by lia.
  destruct (addParts_prefix pre _ Hnd Hrange) as (partSet' & Hrun & _).
  by rewrite addParts_app, Hrun.
Qed.

(** X1: the first fragment whose declared index is not below the number of
    fragments received makes [partsToBlock] return the error of the part
    set, whatever follows it. *)
Theorem partsToBlock_index_beyond (pre post : list Part) (p : Part) :
  Z.of_nat (length (pre ++ p :: post)) < 2 ^ 32 ->
  NoDup (Index <$> pre) ->
  (forall q, q ∈ pre -> 0 <= Index q < Z.of_nat (length (pre ++ p :: post))) ->
  Z.of_nat (length (pre ++ p :: post)) <= Index p ->
  partsToBlock (Some <$> (pre ++ p :: post)) =
    Done (None, Some ErrPartSetUnexpectedIndex).
Proof. apply partsToBlock_beyond. Qed.

(** X2: the first fragment that declares an index already declared makes
    [partsToBlock] return no block and no error. *)
Theorem partsToBlock_index_twice (pre post : list Part) (p : Part) :
  Z.of_nat (length (pre ++ p :: post)) < 2 ^ 32 ->
  NoDup (Index <$> pre) ->
  (forall q, q ∈ pre -> 0 <= Index q < Z.of_nat (length (pre ++ p :: post))) ->
  Index p ∈ Index <$> pre ->
  partsToBlock (Some <$> (pre ++ p :: post)) = Done (None, None).
Proof. apply partsToBlock_twice. Qed.

(** X3: a buffer reaches the deserializer only when every fragment carries
    a part and the declared indices are the numbers [0 .. n-1], once
    each. *)
Theorem partsToBlock_bz_only_if (ops : list (option Part)) (bz : bytes) :
  Z.of_nat (length ops) < 2 ^ 32 ->
  Forall (fun o => forall p, o = Some p -> 0 <= Index p) ops ->
  partsToBlock_bz ops = Done (Next bz) ->
  exists ps,
    ops = Some <$> ps /\ ps <> [] /\
    Index <$> ps ≡ₚ seqZ 0 (Z.of_nat (length ps)).
Proof.
  intros Hlen Hpos. unfold partsToBlock_bz. rewrite uint32_small by lia.
  destruct (addParts ops _) as [[out|partSet']|pn] eqn:Hrun; cbn; [done| |done].
  destruct (addParts_next_present _ _ _ Hrun) as [ps ->].
  rewrite length_fmap in *. intros Hread. exists ps. split; [done|].
  assert (Hne : ps <> []).
  { intros ->. cbn in Hrun. injection Hrun as <-. by cbn in Hread. }
  apply addParts_next_inv in Hrun as [Hnd Hrange].
  - split; [done|].
    rewrite <- (length_fmap Index ps). apply distinct_below_all; [done|].
      intros i (p & -> & Hp)%list_elem_of_fmap. rewrite length_fmap.
      destruct (Hrange p Hp) as [Hlt _]. cbn in Hlt. split; [|done].
      rewrite Forall_fmap in Hpos.
      by apply (proj1 (Forall_forall _ _) Hpos p); [apply list_elem_of_In|].
  - cbn. rewrite length_replicate. done.
  - rewrite Forall_fmap in Hpos. eapply Forall_impl; [|exact Hpos].
    intros p Hp. by apply Hp.
Qed.

(** X4: on fragments that all carry a part, [partsToBlock] does not
    panic, and there are three outcomes: the error of the part set, no
    block and no error, or what the deserializer makes of the payloads in
    the order of the declared indices. *)
Theorem partsToBlock_outcomes (ps : list Part) :
  ps <> [] ->
  Z.of_nat (length ps) < 2 ^ 32 ->
  Forall (fun p => 0 <= Index p) ps ->
  partsToBlock (Some <$> ps) = Done (None, Some ErrPartSetUnexpectedIndex) \/
  partsToBlock (Some <$> ps) = Done (None, None) \/
  exists qs,
    ps ≡ₚ qs /\
    Index <$> qs = seqZ 0 (Z.of_nat (length ps)) /\
    partsToBlock (Some <$> ps) = Done (decodeBlock (concat (Bytes <$> qs))).
Proof.
  intros Hne Hlen Hpos.
  destruct (addParts_return ps (NewPartSetFromHeader (Z.of_nat (length ps))))
    as [[partSet' Hrun]|[Hrun|Hrun]].
  - right; right.
    apply addParts_next_inv in Hrun as [Hnd Hrange];
      [|by cbn; rewrite length_replicate|done].
    destruct (partsToBlock_bz_by_index ps Hne Hlen) as (qs & Hperm & Hidx & Hbz).
    + rewrite <- (length_fmap Index ps). apply distinct_below_all; [done|].
      intros i (p & -> & Hp)%list_elem_of_fmap. rewrite length_fmap.
      destruct (Hrange p Hp) as [Hlt _]. cbn in Hlt. split; [|done].
      by apply (proj1 (Forall_forall _ _) Hpos p); apply list_elem_of_In.
    + exists qs. split_and!; [done..|]. unfold partsToBlock. by rewrite Hbz.
  - left. unfold partsToBlock, partsToBlock_bz.
    rewrite length_fmap, uint32_small by lia. by rewrite Hrun.
  - right; left. unfold partsToBlock, partsToBlock_bz.
    rewrite length_fmap, uint32_small by lia. by rewrite Hrun.
Qed.

End PartsToBlockFacts.

(** ** What [receiveBlockByHeight] reads and returns *)

Section ReceiveFacts.
Context `{Dec : Decoders}.

Lemma untilLast_split (rs consumed remaining : list BlockByHeightResponse) :
  untilLast rs = Some (consumed, remaining) ->
  rs = consumed ++ remaining /\
  exists init lst,
    consumed = init ++ [lst] /\
    IsLast lst = true /\
    Forall (fun r => IsLast r = false) init.
Proof.
  revert consumed remaining.
  induction rs as [|r rs IH]; intros consumed remaining; cbn; [done|].
  destruct (IsLast r) eqn:Hr.
  - intros [= <- <-]. split; [done|]. by exists [], r.
  - destruct (untilLast rs) as [[c l]|]; [|done]. intros [= <- <-].
    destruct (IH c l eq_refl) as (-> & init & lst & -> & Hlst & Hinit).
    split; [done|]. exists (r :: init), lst. split_and!; [done..|].
    by constructor.
Qed.

Lemma untilLast_none_inv (rs : list BlockByHeightResponse) :
  untilLast rs = None -> Forall (fun r => IsLast r = false) rs.
Proof.
  induction rs as [|r rs IH]; cbn; [by constructor|].
  destruct (IsLast r) eqn:Hr; [done|].
  destruct (untilLast rs) as [[c l]|]; [done|]. intros _. constructor; auto.
Qed.

(** The result of [receiveBlockByHeight] is a block or an error, never
    both and never neither, unless it panics. *)
Lemma receiveBlockByHeight_shape (st : Stream) :
  (exists p, fst (receiveBlockByHeight st) = Panicked p) \/
  (exists block, fst (receiveBlockByHeight st) = Done (Some block, None)) \/
  (exists e, fst (receiveBlockByHeight st) = Done (None, Some e)).
Proof.
  unfold receiveBlockByHeight, Recv.
  destruct (pending st) as [|first rest]; cbn [ok fail]; [right; right; by eexists|].
  destruct (CommitFromProto _) as [msg|commit]; [right; right; by eexists|].
  destruct (ValidatorSetFromProto _) as [msg|validatorSet]; [right; right; by eexists|].
  assert (Hsign : forall r : run (goret types_Block),
    (exists p, signBlock commit validatorSet r = Panicked p) \/
    (exists block, signBlock commit validatorSet r = Done (Some block, None)) \/
    (exists e, signBlock commit validatorSet r = Done (None, Some e))).
  { intros [[[block|] [e|]]|p]; cbn; eauto. }
  destruct (IsLast first).
  - apply (Hsign (partsToBlock _)).
  - cbn [pending closing]. rewrite receiveRest_untilLast.
    destruct (untilLast rest) as [[consumed remaining]|];
      [apply (Hsign (partsToBlock _))|right; right; by eexists].
Qed.

(** X5: [receiveBlockByHeight] returns a block or an error, never both and
    never neither, unless it panics: a caller that finds no error has a
    block. *)
Theorem receiveBlockByHeight_block_xor_error (st : Stream) :
  (exists p, fst (receiveBlockByHeight st) = Panicked p) \/
  (exists block, fst (receiveBlockByHeight st) = Done (Some block, None)) \/
  (exists e, fst (receiveBlockByHeight st) = Done (None, Some e)).
Proof. apply receiveBlockByHeight_shape. Qed.

(** X6: [receiveBlockByHeight] reads the responses in order and stops at
    the first one marked last: what it has read is a prefix of the stream
    in which only the last response read can be marked last, and the rest
    is left on the stream. *)
Theorem receiveBlockByHeight_reads (st : Stream) :
  exists read unread,
    pending st = read ++ unread /\
    snd (receiveBlockByHeight st) = {| pending := unread; closing := closing st |} /\
    forall init lst, read = init ++ [lst] -> Forall (fun r => IsLast r = false) init.
Proof.
  unfold receiveBlockByHeight, Recv. destruct st as [[|first rest] cl]; cbn.
  { exists [], []. split_and!; [done..|]. by intros [|??] ? [=]. }
  assert (Hone : forall init lst,
    [first] = init ++ [lst] -> Forall (fun r => IsLast r = false) init).
  { intros init lst Heq. apply (app_inj_tail [] init) in Heq as [<- _]. constructor. }
  destruct (CommitFromProto _) as [msg|commit]; [by exists [first], rest|].
  destruct (ValidatorSetFromProto _) as [msg|validatorSet]; [by exists [first], rest|].
  destruct (IsLast first) eqn:Hfirst; [by exists [first], rest|].
  rewrite receiveRest_untilLast.
  destruct (untilLast rest) as [[consumed remaining]|] eqn:Hlast.
  - apply untilLast_split in Hlast as (-> & init' & lst' & -> & _ & Hinit).
    exists (first :: init' ++ [lst']), remaining. split_and!; [done..|].
    intros init lst Heq. rewrite app_comm_cons in Heq.
    apply app_inj_tail in Heq as [<- _]. by constructor.
  - apply untilLast_none_inv in Hlast.
    exists (first :: rest), []. split_and!; [by rewrite app_nil_r|done|].
    intros init lst Heq.
    assert (Hall : Forall (fun r => IsLast r = false) (init ++ [lst])).
    { rewrite <- Heq. by constructor. }
    by apply Forall_app in Hall as [Hall _].
Qed.

(** The parts the loop gathers depend on the parts and on the flags of
    the responses only. *)
Lemma receiveRest_same_parts (cl : error) (rs rs' : list BlockByHeightResponse) :
  Forall2 (fun r r' => BlockPart r = BlockPart r' /\ IsLast r = IsLast r') rs rs' ->
  forall ps, fst (receiveRest cl rs ps) = fst (receiveRest cl rs' ps).
Proof.
  induction 1 as [|r r' rs rs' [Hpart Hflag] _ IH]; intros ps; cbn; [done|].
  rewrite Hpart, Hflag. destruct (IsLast r'); [done|]. apply IH.
Qed.

(** X7: the commit and the validator set are those of the first response:
    what the later responses carry besides their part and their flag has
    no influence on the result. *)
Theorem receiveBlockByHeight_first_metadata (cl : error)
    (first : BlockByHeightResponse) (rest rest' : list BlockByHeightResponse) :
  Forall2 (fun r r' => BlockPart r = BlockPart r' /\ IsLast r = IsLast r') rest rest' ->
  fst (receiveBlockByHeight {| pending := first :: rest; closing := cl |}) =
  fst (receiveBlockByHeight {| pending := first :: rest'; closing := cl |}).
Proof.
  intros Hsame. unfold receiveBlockByHeight, Recv. cbn.
  destruct (CommitFromProto _) as [msg|commit]; [done|].
  destruct (ValidatorSetFromProto _) as [msg|validatorSet]; [done|].
  destruct (IsLast first); [done|].
  pose proof (receiveRest_same_parts cl rest rest' Hsame [BlockPart first]) as Heq.
  destruct (receiveRest cl rest _) as [[out|ps] st1].
  all: destruct (receiveRest cl rest' _) as [[out'|ps'] st1']; cbn in Heq;
    by simplify_eq.
Qed.

Lemma imap_parts_indices (chunks : list bytes) (start : nat) :
  Index <$> imap (fun i bz => mkPart (Z.of_nat (start + i)) bz) chunks =
    seqZ (Z.of_nat start) (Z.of_nat (length chunks)).
Proof.
  revert start. induction chunks as [|bz chunks IH]; intros start; [done|].
  cbn [imap fmap list_fmap length]. rewrite seqZ_cons by lia.
  f_equal; [cbn; f_equal; lia|].
  rewrite (imap_ext _ (fun i bz => mkPart (Z.of_nat (S start + i)) bz)).
  - rewrite (IH (S start)). f_equal; lia.
  - intros i x _. cbn. f_equal. lia.
Qed.

Lemma imap_parts_bytes (chunks : list bytes) (start : nat) :
  Bytes <$> imap (fun i bz => mkPart (Z.of_nat (start + i)) bz) chunks = chunks.
Proof.
  revert start. induction chunks as [|bz chunks IH]; intros start; [done|].
  cbn [imap fmap list_fmap]. f_equal.
  rewrite (imap_ext _ (fun i bz => mkPart (Z.of_nat (S start + i)) bz)).
  - apply (IH (S start)).
  - intros i x _. cbn. f_equal. lia.
Qed.

(** X8: the round trip.  When the serialized block was cut into chunks and
    chunk [i] is delivered as the fragment of index [i], the last one
    marked last, the block returned is what the deserializer makes of the
    chunks put together again, and nothing is read after the last
    fragment. *)
Theorem receiveBlockByHeight_round_trip (st : Stream) first rest commit validatorSet
    consumed remaining (chunks : list bytes) :
  pending st = first :: rest ->
  CommitFromProto (resp_Commit first) = inr commit ->
  ValidatorSetFromProto (resp_ValidatorSet first) = inr validatorSet ->
  untilLast (pending st) = Some (consumed, remaining) ->
  BlockPart <$> consumed =
    Some <$> imap (fun i bz => mkPart (Z.of_nat i) bz) chunks ->
  Z.of_nat (length chunks) < 2 ^ 32 ->
  receiveBlockByHeight st =
    (signBlock commit validatorSet (Done (decodeBlock (concat chunks))),
     {| pending := remaining; closing := closing st |}).
Proof.
  intros Hpend Hc Hv Hlast Hparts Hlen.
  rewrite (receiveBlockByHeight_parts st first rest commit validatorSet
             consumed remaining) by done.
  set (ps := imap (fun i bz => mkPart (Z.of_nat i) bz) chunks) in *.
  f_equal. f_equal. rewrite Hparts.
  assert (Hn : length ps = length chunks) by apply length_imap.
  assert (Hidx : Index <$> ps = seqZ 0 (Z.of_nat (length ps))).
  { rewrite Hn. apply (imap_parts_indices chunks 0). }
  assert (Hne : ps <> []).
  { apply untilLast_consumed in Hlast. intros Hnil. rewrite Hnil in Hparts.
    by destruct consumed. }
  destruct (partsToBlock_bz_by_index ps Hne) as (qs & Hperm & Hidx' & Hbz).
  { by rewrite Hn. }
  { by rewrite Hidx. }
  assert (qs = ps) as ->.
  { symmetry. apply same_indices_same_order; [done| |congruence].
    rewrite Hidx. apply NoDup_seqZ. }
  unfold partsToBlock. rewrite Hbz. cbn. do 3 f_equal.
  apply (imap_parts_bytes chunks 0).
Qed.

(** X9: a stream on which a fragment declares an index that an earlier
    fragment declared makes [receiveBlockByHeight] panic: [partsToBlock]
    returns no block and no error, and the header of the missing block is
    read. *)
Theorem receiveBlockByHeight_index_twice (st : Stream) first rest commit
    validatorSet consumed remaining (pre post : list Part) (p : Part) :
  pending st = first :: rest ->
  CommitFromProto (resp_Commit first) = inr commit ->
  ValidatorSetFromProto (resp_ValidatorSet first) = inr validatorSet ->
  untilLast (pending st) = Some (consumed, remaining) ->
  BlockPart <$> consumed = Some <$> (pre ++ p :: post) ->
  Z.of_nat (length (pre ++ p :: post)) < 2 ^ 32 ->
  NoDup (Index <$> pre) ->
  (forall q, q ∈ pre -> 0 <= Index q < Z.of_nat (length (pre ++ p :: post))) ->
  Index p ∈ Index <$> pre ->
  fst (receiveBlockByHeight st) = Panicked NilDereference.
Proof.
  intros Hpend Hc Hv Hlast Hparts Hlen Hnd Hrange Hp.
  rewrite (receiveBlockByHeight_parts st first rest commit validatorSet
             consumed remaining) by done.
  cbn [fst]. by rewrite Hparts, partsToBlock_twice.
Qed.

(** X10: a response without a part, after fragments with distinct indices
    within the count, makes [receiveBlockByHeight] panic once the last
    fragment has arrived. *)
Theorem receiveBlockByHeight_missing_part (st : Stream) first rest commit
    validatorSet consumed remaining (pre : list Part) (ops : list (option Part)) :
  pending st = first :: rest ->
  CommitFromProto (resp_Commit first) = inr commit ->
  ValidatorSetFromProto (resp_ValidatorSet first) = inr validatorSet ->
  untilLast (pending st) = Some (consumed, remaining) ->
  BlockPart <$> consumed = (Some <$> pre) ++ None :: ops ->
  Z.of_nat (length ((Some <$> pre) ++ None :: ops)) < 2 ^ 32 ->
  NoDup (Index <$> pre) ->
  (forall q, q ∈ pre ->
     0 <= Index q < Z.of_nat (length ((Some <$> pre) ++ None :: ops))) ->
  fst (receiveBlockByHeight st) = Panicked NilDereference.
Proof.
  intros Hpend Hc Hv Hlast Hparts Hlen Hnd Hrange.
  rewrite (receiveBlockByHeight_parts st first rest commit validatorSet
             consumed remaining) by done.
  cbn [fst]. by rewrite Hparts, partsToBlock_missing.
Qed.

End ReceiveFacts.

(** ** The sizes [extendShares] accepts *)

(** A square that is a power of two is the square of a power of two. *)
Lemma square_power_of_two (m : nat) : forall k : Z,
  0 < k -> k * k = 2 ^ Z.of_nat m ->
  exists j : nat, k = 2 ^ Z.of_nat j /\ m = (2 * j)%nat.
Proof.
  induction (lt_wf m) as [m _ IH]. intros k Hk Hsq.
  destruct m as [|[|m]].
  - exists 0%nat. split; [|done]. cbn in *. nia.
  - exfalso. change (2 ^ Z.of_nat 1) with 2 in Hsq.
    assert (k = 1 \/ 2 <= k) as [->|Hk2] by lia; [lia|nia].
  - replace (Z.of_nat (S (S m))) with (Z.of_nat m + 2) in Hsq by lia.
    rewrite Z.pow_add_r in Hsq by lia. change (2 ^ 2) with 4 in Hsq.
    destruct (Z.Even_or_Odd k) as [[q ->]|[q ->]].
    + assert (Hq : 0 < q) by lia.
      assert (Hqq : q * q = 2 ^ Z.of_nat m) by nia.
      destruct (IH m (ltac:(lia)) q Hq Hqq) as (j & -> & ->).
      exists (S j). split; [|lia].
      rewrite Nat2Z.inj_succ, Z.pow_succ_r by lia. done.
    + exfalso. set (x := 2 ^ Z.of_nat m) in *. clearbody x.
      assert (4 * (q * q + q - x) = -1) by lia. lia.
Qed.

Section ExtensionFacts.
Context `{Lib : SquareLibs}.
Local Open Scope run_scope.

Lemma extendShares_square_gate (s : list bytes) options eds :
  result (extendShares s options) = Done (Some eds, None) ->
  IsPowerOfTwo (Z.of_nat (length s)) = true.
Proof. unfold extendShares. by destruct (IsPowerOfTwo _). Qed.

(** X11: [extendShares] returns a square only for a number of shares that
    is a power of four, [4^j]; the square then has the width [2^(j+1)]
    and the data the width [2^j]. *)
Theorem extendShares_sizes (s : list bytes) options eds :
  result (extendShares s options) = Done (Some eds, None) ->
  exists j : nat,
    Z.of_nat (length s) = 4 ^ Z.of_nat j /\
    Z.of_nat (originalDataWidth eds) = 2 ^ Z.of_nat j /\
    Z.of_nat (width eds) = 2 ^ (Z.of_nat j + 1).
Proof.
  intros Hrun. pose proof (extendShares_square_gate _ _ _ Hrun) as Hpow.
  apply IsPowerOfTwo_inv in Hpow as (m & Hm & Hlen); [|lia].
  apply extendShares_square, ComputeExtendedDataSquare_inv in Hrun
    as (k & Hkk & Hw & Ho & _).
  assert (Hpos : 0 < 2 ^ m) by (apply Z.pow_pos_nonneg; lia).
  destruct (square_power_of_two (Z.to_nat m) (Z.of_nat k)) as (j & Hk & Hmj).
  - nia.
  - rewrite Z2Nat.id by done. nia.
  - exists j. split_and!.
    + rewrite Hlen. replace m with (Z.of_nat (2 * j)) by lia.
      rewrite Nat2Z.inj_mul, Z.pow_mul_r by lia. done.
    + by rewrite Ho.
    + rewrite Hw, Nat2Z.inj_add, Hk, Z.pow_add_r by lia. lia.
Qed.

(** X12: a square is returned only when the shares are not more than the
    codec takes, their size is one the codec accepts, and they all have
    that size. *)
Theorem extendShares_accepts (s : list bytes) options eds :
  result (extendShares s options) = Done (Some eds, None) ->
  Z.of_nat (length s) <= MaxChunks DefaultCodec /\
  ValidateChunkSize DefaultCodec (Z.of_nat (chunkSize eds)) = None /\
  Forall (fun d => length d = chunkSize eds) s.
Proof.
  intros Hrun. apply extendShares_square in Hrun.
  pose proof (ComputeExtendedDataSquare_inv _ _ _ _ Hrun)
    as (k & _ & _ & _ & _ & Hsize & _).
  split_and!; [| |done].
  - unfold ComputeExtendedDataSquare in Hrun.
    destruct (Z.ltb_spec (MaxChunks DefaultCodec) (Z.of_nat (length s))); [done|lia].
  - unfold ComputeExtendedDataSquare in Hrun.
    destruct (Z.ltb _ _); [done|]. destruct s as [|d s']; [done|].
    apply list.Forall_cons in Hsize as [<- _].
    by destruct (ValidateChunkSize DefaultCodec _).
Qed.

Lemma extendShares_shape (s : list bytes) options :
  (exists p, result (extendShares s options) = Panicked p) \/
  (exists eds, result (extendShares s options) = Done (Some eds, None)) \/
  (exists e, result (extendShares s options) = Done (None, Some e)).
Proof.
  unfold extendShares. destruct (negb _); cbn; [right; right; by eexists|].
  destruct (ComputeExtendedDataSquare _ _ _) as [[msg|eds]|p]; cbn; eauto.
Qed.

Lemma extendBlock_shape (data : types_Data) (appVersion : Z) options :
  (exists p, result (extendBlock data appVersion options) = Panicked p) \/
  (exists eds, result (extendBlock data appVersion options) = Done (Some eds, None)) \/
  (exists e, result (extendBlock data appVersion options) = Done (None, Some e)).
Proof.
  unfold extendBlock. destruct (IsEmptyBlockRef _ _); cbn; [right; left; by eexists|].
  destruct (Construct _ _ _) as [msg|square]; cbn; [right; right; by eexists|].
  pose proof (extendShares_shape (ToBytes square) options) as Hshape.
  by destruct (extendShares (ToBytes square) options) as [cs r].
Qed.

(** X13: [extendBlock] returns a square or an error, never both and never
    neither, unless the coder panics: [main] can use the square whenever
    it finds no error. *)
Theorem extendBlock_square_xor_error (data : types_Data) (appVersion : Z) options :
  (exists p, result (extendBlock data appVersion options) = Panicked p) \/
  (exists eds, result (extendBlock data appVersion options) = Done (Some eds, None)) \/
  (exists e, result (extendBlock data appVersion options) = Done (None, Some e)).
Proof. apply extendBlock_shape. Qed.


End ExtensionFacts.

(** ** The shares of the extended square *)

Section ShareSizes.
Context {Tree : Type}.
Implicit Types (sq : list (list bytes)) (ds eds : ExtendedDataSquare Tree).

(** Every cell has the size [n]. *)
#[local] Abbreviation sized n sq := (Forall (Forall (fun c : bytes => length c = n)) sq).

Lemma sized_setCell (n : nat) sq x y v :
  sized n sq -> length v = n -> sized n (setCell sq x y v).
Proof.
  intros Hsq Hv. unfold setCell. apply Forall_lookup. intros r row Hrow.
  destruct (decide (r = x)) as [->|Hne].
  - rewrite list_lookup_alter_eq in Hrow.
    destruct (sq !! x) as [row0|] eqn:Hx; [|done]. cbn in Hrow. simplify_eq.
    pose proof (Forall_lookup_1 _ _ _ _ Hsq Hx) as Hrow0. cbn in Hrow0.
    apply Forall_lookup. intros c cell Hcell.
    apply list_lookup_insert_Some in Hcell as [(_ & <- & _)|[_ Hcell]]; [done|].
    by eapply (Forall_lookup_1 _ _ _ _ Hrow0).
  - rewrite list_lookup_alter_ne in Hrow by done.
    by eapply (Forall_lookup_1 _ _ _ _ Hsq).
Qed.

Lemma sized_writeRow (n : nat) newRow : forall sq x y,
  sized n sq -> Forall (fun c => length c = n) newRow ->
  sized n (writeRow sq x y newRow).
Proof.
  induction newRow as [|v rest IH]; intros sq x y Hsq Hnew; cbn; [done|].
  apply list.Forall_cons in Hnew as [Hv Hrest]. by apply IH; [apply sized_setCell|].
Qed.

Lemma sized_writeCol (n : nat) newCol : forall sq x y,
  sized n sq -> Forall (fun c => length c = n) newCol ->
  sized n (writeCol sq x y newCol).
Proof.
  induction newCol as [|v rest IH]; intros sq x y Hsq Hnew; cbn; [done|].
  apply list.Forall_cons in Hnew as [Hv Hrest]. by apply IH; [apply sized_setCell|].
Qed.

Lemma uneven_false ds (cells : list bytes) :
  uneven ds cells = false -> Forall (fun c => length c = chunkSize ds) cells.
Proof.
  unfold uneven. intros H%negb_false_iff. rewrite forallb_forall in H.
  apply Forall_forall. intros c Hc. by apply Nat.eqb_eq, H.
Qed.

Lemma sized_rowsOf (n w m : nat) : forall data : list bytes,
  Forall (fun d => length d = n) data -> sized n (rowsOf w m data).
Proof.
  induction m as [|m IH]; intros data Hdata; cbn; [done|].
  constructor; [by apply Forall_take|]. by apply IH, Forall_drop.
Qed.

Lemma erasureExtendRow_sized codec eds i eds' :
  erasureExtendRow codec eds i = Done (inr eds') ->
  sized (chunkSize eds) (squareRow eds) ->
  chunkSize eds' = chunkSize eds /\ sized (chunkSize eds) (squareRow eds').
Proof.
  unfold erasureExtendRow, setRowSlice.
  destruct (Encode codec _) as [msg|parityShares]; [done|].
  destruct (firstShares _ parityShares) as [shares|p]; [|done]. cbn.
  destruct (uneven eds shares) eqn:Hun; [done|]. intros [= <-] Hsq. cbn.
  split; [done|]. by apply sized_writeRow, uneven_false.
Qed.

Lemma erasureExtendCol_sized codec eds i eds' :
  erasureExtendCol codec eds i = Done (inr eds') ->
  sized (chunkSize eds) (squareRow eds) ->
  chunkSize eds' = chunkSize eds /\ sized (chunkSize eds) (squareRow eds').
Proof.
  unfold erasureExtendCol, setColSlice.
  destruct (Encode codec _) as [msg|parityShares]; [done|].
  destruct (firstShares _ parityShares) as [shares|p]; [|done]. cbn.
  destruct (uneven eds shares) eqn:Hun; [done|]. intros [= <-] Hsq. cbn.
  split; [done|]. by apply sized_writeCol, uneven_false.
Qed.

Lemma extendEach_sized (step : _ -> nat -> run (string + ExtendedDataSquare Tree))
    (idxs : list nat) :
  (forall eds i eds',
     step eds i = Done (inr eds') -> sized (chunkSize eds) (squareRow eds) ->
     chunkSize eds' = chunkSize eds /\ sized (chunkSize eds) (squareRow eds')) ->
  forall eds eds',
    extendEach step eds idxs = Done (inr eds') ->
    sized (chunkSize eds) (squareRow eds) ->
    chunkSize eds' = chunkSize eds /\ sized (chunkSize eds) (squareRow eds').
Proof.
  intros Hstep. induction idxs as [|i rest IH]; intros eds eds'; cbn.
  - by intros [= <-].
  - destruct (step eds i) as [[msg|eds1]|p] eqn:Hi; cbn; [done| |done].
    intros Hrest Hsq. destruct (Hstep _ _ _ Hi Hsq) as [Hc1 Hsq1].
    rewrite <- Hc1 in *. by apply IH.
Qed.

(** Every share of the square the coder returns has the size of the
    shares of the data. *)
Lemma ComputeExtendedDataSquare_sized data codec (tree : Tree) eds :
  ComputeExtendedDataSquare data codec tree = Done (inr eds) ->
  sized (chunkSize eds) (squareRow eds).
Proof.
  unfold ComputeExtendedDataSquare. destruct (Z.ltb _ _); [done|].
  destruct data as [|d data']; [done|]. set (data := d :: data').
  destruct (ValidateChunkSize codec _) as [msg|]; [done|].
  destruct (newDataSquare data tree (length d)) as [msg|ds] eqn:Hnew; [done|].
  apply newDataSquare_inv in Hnew as (k & Hlen & -> & Hsize).
  unfold erasureExtendSquare, extendSquare. cbn.
  rewrite length_replicate, Nat.eqb_refl. cbn.
  set (eds2 := {| squareRow := _ |}).
  assert (Hsq2 : sized (chunkSize eds2) (squareRow eds2)).
  { cbn. apply Forall_app. split.
    - apply Forall_fmap. eapply Forall_impl; [|by apply (sized_rowsOf (length d))].
      intros row Hrow. cbn. apply Forall_app. split; [done|].
      apply Forall_replicate, length_replicate.
    - apply Forall_replicate, Forall_replicate, length_replicate. }
  destruct (extendEach _ eds2 _) as [[msg|eds3]|p] eqn:H3; cbn; [done| |done].
  intros H4.
  apply extendEach_sized in H3 as [Hc3 Hsq3]; [|clear; intros e i e' He Hsq|done].
  2:{ destruct (erasureExtendRow codec e i) as [[msg|e1]|p] eqn:Hr; cbn in He;
        [done| |done].
      destruct (erasureExtendRow_sized _ _ _ _ Hr Hsq) as [Hc1 Hsq1].
      rewrite <- Hc1 in *. by eapply erasureExtendCol_sized. }
  rewrite <- Hc3 in Hsq3.
  apply extendEach_sized in H4 as [Hc4 Hsq4];
    [|intros e i e'; apply erasureExtendRow_sized|done].
  by rewrite Hc4.
Qed.

End ShareSizes.

Section StoredShares.
Context `{Lib : SquareLibs}.

(** X26: every share of a square returned by [extendShares] has the size
    of the shares it was given, and [GetCell], within the square, returns
    the share that is stored, byte for byte. *)
Theorem GetCell_returns_stored_share (s : list bytes) options eds (row col : Z) :
  result (extendShares s options) = Done (Some eds, None) ->
  0 <= row < Z.of_nat (width eds) -> 0 <= col < Z.of_nat (width eds) ->
  exists share,
    cellAt (squareRow eds) (Z.to_nat row) (Z.to_nat col) = Some share /\
    length share = chunkSize eds /\
    Forall (fun d => length d = length share) s /\
    GetCell eds row col = Done share.
Proof.
  intros Hrun Hrow Hcol. apply extendShares_square in Hrun.
  pose proof (ComputeExtendedDataSquare_sized _ _ _ _ Hrun) as Hsized.
  apply ComputeExtendedDataSquare_inv in Hrun as (k & _ & Hw & _ & Hsq & Hdata & _).
  rewrite Hw in Hrow, Hcol.
  destruct (GetCell_inside eds (k + k) row col Hsq Hrow Hcol) as (cell & Hat & Hget).
  assert (Hlen : length cell = chunkSize eds).
  { unfold cellAt in Hat.
    destruct (squareRow eds !! Z.to_nat row) as [r|] eqn:Hr; [|done]. cbn in Hat.
    pose proof (Forall_lookup_1 _ _ _ _ Hsized Hr) as Hrsized. cbn in Hrsized.
    by apply (Forall_lookup_1 _ _ _ _ Hrsized Hat). }
  exists cell. split_and!; [done..| |].
  - by rewrite Hlen.
  - rewrite Hget. f_equal. by apply copyCell_whole.
Qed.

End StoredShares.

(** ** Every run of [main] *)

Section MainRuns.
Context `{Lib : SquareLibs} `{Net : !Node}.

(** The runs of [main], case by case. *)
Ltac main_cases H :=
  unfold runMain, main, io_bind, NewCoreAccessor in H; cbn in H;
  repeat (match type of H with
          | context [grpc_NewClient ?a] => destruct (grpc_NewClient a) eqn:?
          | context [String.eqb ?a ?b] => destruct (String.eqb a b) eqn:?
          | context [getSignedBlock ?a ?b] =>
              destruct (getSignedBlock a b) as [[[?|] [?|]]|?] eqn:?
          | context [extendBlock ?a ?b ?c] =>
              destruct (extendBlock a b c) as [? [[[?|] [?|]]|?]] eqn:?
          | context [makeExtendedHeader ?a ?b ?c ?d] =>
              destruct (makeExtendedHeader a b c d) as [? [[?|] [?|]]] eqn:?
          | context [NewDataAvailabilityHeader ?a] =>
              destruct (NewDataAvailabilityHeader a) eqn:?
          | context [Atoi ?a] => destruct (Atoi a) eqn:?
          | context [GetCell ?a ?b ?c] => destruct (GetCell a b c) eqn:?
          end; cbn in H).

(** The lines that can be the one looked for in what was printed. *)
Ltac not_printed H :=
  repeat (apply elem_of_cons in H as [H|H]; [try discriminate H|]);
  try (by apply elem_of_nil in H).

(** X15: whenever [main] ends by [os.Exit], the status is 0 or 1; an error
    is printed exactly when the status is 1, and it is the last line
    printed. *)
Theorem main_exit_discipline (args : list string) (e : ending) (out : list line) :
  runMain args = (e, out) ->
  (forall code, e = Exit code -> code = 0 \/ code = 1) /\
  (e = Exit 1 -> exists pre err, out = pre ++ [PrintError err]) /\
  (forall err, PrintError err ∈ out ->
     e = Exit 1 /\ exists pre, out = pre ++ [PrintError err] /\ PrintError err ∉ pre).
Proof.
  intros H.
  destruct args as [|ip [|cmd [|h [|a3 [|a4 more]]]]]; main_cases H.
  all: injection H as <- <-.
  all: split_and!.
  all: try (intros code Hc; inversion Hc; by auto).
  all: try (intros Hc; inversion Hc;
            first [by eexists [], _ | by eexists [_], _ | by eexists [_; _], _]).
  all: intros err Hin; not_printed Hin.
  all: injection Hin as <-; split; [done|].
  all: first [ exists []; split; [done|]; by intros ?%elem_of_nil
             | eexists [_]; split; [done|]; intros Hpre; by not_printed Hpre ].
Qed.

(** The same on a goal about runs of [main]. *)
Ltac main_run :=
  unfold runMain, main, io_bind, NewCoreAccessor; cbn;
  repeat (match goal with
          | |- context [grpc_NewClient ?a] => destruct (grpc_NewClient a) eqn:?
          | |- context [String.eqb ?a ?b] => destruct (String.eqb a b) eqn:?
          | |- context [getSignedBlock ?a ?b] =>
              destruct (getSignedBlock a b) as [[[?|] [?|]]|?] eqn:?
          | |- context [extendBlock ?a ?b ?c] =>
              destruct (extendBlock a b c) as [? [[[?|] [?|]]|?]] eqn:?
          | |- context [NewDataAvailabilityHeader ?a] =>
              destruct (NewDataAvailabilityHeader a) eqn:?
          | |- context [Atoi ?a] => destruct (Atoi a) eqn:?
          | |- context [GetCell ?a ?b ?c] => destruct (GetCell a b c) eqn:?
          end; cbn).

(** X16: [main] reads five arguments at most: what follows the height
    changes nothing for a command other than [share], whatever its number,
    and what follows the two indices changes nothing for any command. *)
Theorem main_ignores_further_arguments (ip cmd h : string) (more : list string) :
  (cmd <> "share"%string ->
   runMain (ip :: cmd :: h :: more) = runMain [ip; cmd; h]) /\
  (forall a3 a4 : string,
     runMain (ip :: cmd :: h :: a3 :: a4 :: more) = runMain [ip; cmd; h; a3; a4]).
Proof.
  split.
  - intros Hcmd%String.eqb_neq. main_run; congruence.
  - intros a3 a4. main_run; reflexivity.
Qed.

Lemma getSignedBlock_shape (c : CoreAccessor) (h : string) :
  (exists p, getSignedBlock c h = Panicked p) \/
  (exists block, getSignedBlock c h = Done (Some block, None)) \/
  (exists e, getSignedBlock c h = Done (None, Some e)).
Proof.
  unfold getSignedBlock.
  destruct (Atoi h) as [msg|height]; [right; right; by eexists|].
  destruct (BlockByHeight _ _) as [msg|stream]; [right; right; by eexists|].
  destruct (receiveBlockByHeight_shape stream) as [[p ->]|[[block ->]|[e ->]]];
    cbn; eauto.
Qed.

(** X17: [getSignedBlock] returns a block or an error, never both and
    never neither; a height that is not a number and a call that cannot be
    opened are errors, and no stream is read for them. *)
Theorem getSignedBlock_block_xor_error (c : CoreAccessor) (h : string) :
  ((exists p, getSignedBlock c h = Panicked p) \/
   (exists block, getSignedBlock c h = Done (Some block, None)) \/
   (exists e, getSignedBlock c h = Done (None, Some e))) /\
  (forall msg, Atoi h = inl msg ->
     getSignedBlock c h = Done (None, Some (ErrDependency msg))) /\
  (forall height msg,
     Atoi h = inr height -> BlockByHeight (client c) height = inl msg ->
     getSignedBlock c h = Done (None, Some (ErrDependency msg))) /\
  (forall height stream block,
     Atoi h = inr height -> BlockByHeight (client c) height = inr stream ->
     fst (receiveBlockByHeight stream) = Done (Some block, None) ->
     getSignedBlock c h = Done (Some block, None)).
Proof.
  split; [apply getSignedBlock_shape|]. unfold getSignedBlock. split_and!.
  - by intros msg ->.
  - by intros height msg -> ->.
  - by intros height stream block -> -> ->.
Qed.

(** X18: [block], [eds] and [share] without a height: the name of the
    command is printed and [main] panics on [args[2]]. *)
Theorem main_missing_height (ip cmd : string) conn :
  grpc_NewClient ip = inr conn ->
  cmd = "eds"%string \/ cmd = "share"%string \/ cmd = "block"%string ->
  runMain [ip; cmd] = (Crash (IndexOutOfRange 2 2), [PrintString cmd]).
Proof.
  intros Hdial Hcmd. unfold runMain, main, io_bind, NewCoreAccessor. cbn.
  rewrite Hdial. by destruct Hcmd as [->|[->| ->]].
Qed.

(** X19: [share] without its indices: the block is fetched and extended,
    and [main] panics on [args[3]], or on [args[4]] when the first index
    is there and is a number. *)
Theorem main_share_missing_index (ip h : string) conn block eds :
  grpc_NewClient ip = inr conn ->
  getSignedBlock {| client := conn |} h = Done (Some block, None) ->
  result (extendBlock (sb_Data block) (Version_App (sb_Header block)) []) =
    Done (eds, None) ->
  runMain [ip; "share"%string; h] =
    (Crash (IndexOutOfRange 3 3), [PrintString "share"]) /\
  forall a3 r,
    Atoi a3 = inr r ->
    runMain [ip; "share"%string; h; a3] =
      (Crash (IndexOutOfRange 4 4), [PrintString "share"]).
Proof.
  intros Hdial Hget Hext. unfold runMain, main, io_bind, NewCoreAccessor. cbn.
  rewrite Hdial. cbn. rewrite Hget. cbn. rewrite Hext. cbn.
  split; [done|]. intros a3 r Hr. by rewrite Hr.
Qed.

(** X20: a negative row index is converted to an unsigned number beyond
    every square, and [share] panics on it. *)
Theorem main_share_negative_row (ip h a3 a4 : string) (more : list string)
    conn block eds (r c : Z) :
  grpc_NewClient ip = inr conn ->
  getSignedBlock {| client := conn |} h = Done (Some block, None) ->
  result (extendBlock (sb_Data block) (Version_App (sb_Header block)) []) =
    Done (Some eds, None) ->
  Atoi a3 = inr r -> Atoi a4 = inr c ->
  - 2 ^ 63 <= r < 0 ->
  Z.of_nat (length (squareRow eds)) <= 2 ^ 63 ->
  runMain (ip :: "share"%string :: h :: a3 :: a4 :: more) =
    (Crash (IndexOutOfRange (r + 2 ^ 64) (Z.of_nat (length (squareRow eds)))),
     [PrintString "share"]).
Proof.
  intros Hdial Hget Hext Hr Hc Hneg Hrows.
  rewrite (main_share _ _ _ _ _ _ _ _ Hdial Hget Hext), Hr, Hc.
  assert (Hu : uint64 r = r + 2 ^ 64).
  { unfold uint64. symmetry. apply (Z.mod_unique_pos _ _ (-1)); lia. }
  unfold GetCell. rewrite Hu, elementAt_outside by lia. done.
Qed.

(** X21: on an empty block the [share] command reads its cell from the
    square [share.EmptyEDS()] points to. *)
Theorem main_share_empty_block (ip h a3 a4 : string) (more : list string)
    conn block (r c : Z) :
  grpc_NewClient ip = inr conn ->
  getSignedBlock {| client := conn |} h = Done (Some block, None) ->
  IsEmptyBlockRef (sb_Data block) (Version_App (sb_Header block)) = true ->
  Atoi a3 = inr r -> Atoi a4 = inr c ->
  runMain (ip :: "share"%string :: h :: a3 :: a4 :: more) =
    match GetCell EmptyEDS (uint64 r) (uint64 c) with
    | Done cell => (Exit 0, [PrintString "share"; PrintShare cell])
    | Panicked p => (Crash p, [PrintString "share"])
    end.
Proof.
  intros Hdial Hget Hempty Hr Hc.
  rewrite (main_share _ _ _ _ _ conn block EmptyEDS Hdial Hget), Hr, Hc; [done|].
  unfold extendBlock. by rewrite Hempty.
Qed.

(** X22: on an empty block the [eds] command prints the header that
    [da.NewDataAvailabilityHeader] computes from that square, or exits
    with its error. *)
Theorem main_eds_empty_block (ip h : string) (more : list string) conn block :
  grpc_NewClient ip = inr conn ->
  getSignedBlock {| client := conn |} h = Done (Some block, None) ->
  IsEmptyBlockRef (sb_Data block) (Version_App (sb_Header block)) = true ->
  runMain (ip :: "eds"%string :: h :: more) =
    match NewDataAvailabilityHeader EmptyEDS with
    | inl msg => (Exit 1, [PrintString "eds"; PrintError (ErrDependency msg)])
    | inr dah =>
        (Exit 0,
         [PrintString "eds";
          PrintExtendedHeader
            (Some {| eh_Header := sb_Header block; eh_DAH := dah;
                     eh_Commit := sb_Commit block;
                     eh_ValidatorSet := sb_ValidatorSet block |})])
    end.
Proof.
  intros Hdial Hget Hempty.
  rewrite (main_eds _ _ _ conn block (Some EmptyEDS) Hdial Hget).
  - unfold makeExtendedHeader. by destruct (NewDataAvailabilityHeader EmptyEDS).
  - unfold extendBlock. by rewrite Hempty.
Qed.

(** X23: [main] panics for three reasons only, and exactly then: the
    argument it is about to read is missing ([args[1]] after the dial,
    [args[2]] after the name of [eds], [share] or [block], [args[3]] and
    [args[4]] of [share] once the block is fetched and extended), the
    stage it calls on its own arguments panics ([getSignedBlock] on the
    accessor it dialed, [extendBlock] on the block that came back), or
    [GetCell] does on the square and the indices it was given.  Nothing
    but the name of the command has been printed by then. *)
Theorem main_crash_causes (args : list string) (p : panic) (out : list line) :
  runMain args = (Crash p, out) <->
  exists ip conn,
    args !! 0%nat = Some ip /\ grpc_NewClient ip = inr conn /\
    ((args = [ip] /\ p = IndexOutOfRange 1 1 /\ out = []) \/
     exists cmd,
       args !! 1%nat = Some cmd /\ out = [PrintString cmd] /\
       (cmd = "eds"%string \/ cmd = "share"%string \/ cmd = "block"%string) /\
       ((args = [ip; cmd] /\ p = IndexOutOfRange 2 2) \/
        exists h,
          args !! 2%nat = Some h /\
          (getSignedBlock {| client := conn |} h = Panicked p \/
           exists block,
             getSignedBlock {| client := conn |} h = Done (Some block, None) /\
             cmd <> "block"%string /\
             (result (extendBlock (sb_Data block) (Version_App (sb_Header block)) [])
                = Panicked p \/
              exists eds,
                result (extendBlock (sb_Data block) (Version_App (sb_Header block)) [])
                  = Done (Some eds, None) /\
                cmd = "share"%string /\
                ((args = [ip; cmd; h] /\ p = IndexOutOfRange 3 3) \/
                 exists a3 r,
                   args !! 3%nat = Some a3 /\ Atoi a3 = inr r /\
                   ((args = [ip; cmd; h; a3] /\ p = IndexOutOfRange 4 4) \/
                    exists a4 c,
                      args !! 4%nat = Some a4 /\ Atoi a4 = inr c /\
                      GetCell eds (uint64 r) (uint64 c) = Panicked p)))))).
Proof.
  split.
  - intros H.
    destruct args as [|ip [|cmd [|h [|a3 [|a4 more]]]]]; main_cases H.
    all: try discriminate H.
    all: try match goal with
         | Hg : getSignedBlock ?c ?h = Done (None, None) |- _ =>
             destruct (getSignedBlock_shape c h) as [[? Hs]|[[? Hs]|[? Hs]]];
             rewrite Hs in Hg; discriminate Hg
         end.
    all: try match goal with
         | He : extendBlock ?d ?v ?o = (_, Done (None, None)) |- _ =>
             pose proof (extendBlock_shape d v o) as Hs; rewrite He in Hs;
             cbn in Hs; destruct Hs as [[? Hs]|[[? Hs]|[? Hs]]]; discriminate Hs
         end.
    all: injection H as <- <-.
    all: repeat match goal with
         | He : String.eqb _ _ = true |- _ => apply String.eqb_eq in He; subst
         | He : extendBlock ?d ?v ?o = (_, ?r) |- _ =>
             assert (result (extendBlock d v o) = r) by (by rewrite He); clear He
         end.
    all: eexists _, _; split; [reflexivity|]; split; [eassumption|].
    all: first [ by left | right ].
    all: eexists; split; [reflexivity|]; split; [reflexivity|]; split; [by eauto|].
    all: first [ by left | right ].
    all: eexists; split; [reflexivity|].
    all: first [ by left | right ].
    all: eexists; split; [eassumption|]; split; [done|].
    all: first [ by left | right ].
    all: eexists; split; [eassumption|]; split; [done|].
    all: first [ by left | right ].
    all: eexists _, _; split; [reflexivity|]; split; [eassumption|].
    all: first [ by left | right ].
    all: eexists _, _; split; [reflexivity|]; split; [eassumption|]; done.
  - intros (ip & conn & Hip & Hdial & Hcause).
    destruct args as [|ip' args']; [done|]. injection Hip as ->.
    unfold runMain, main, io_bind, NewCoreAccessor. cbn. rewrite Hdial. cbn.
    destruct Hcause as [([= ->] & -> & ->)|(cmd & Hcmd & -> & Hname & Hcause)]; [done|].
    destruct args' as [|cmd' args']; [done|]. injection Hcmd as ->.
    destruct Hcause as [([= ->] & ->)|(h & Hh & Hcause)].
    { by destruct Hname as [->|[->| ->]]. }
    destruct args' as [|h' args']; [done|]. injection Hh as ->.
    destruct Hcause as [Hget|(block & Hget & Hnb & Hcause)].
    { destruct Hname as [->|[->| ->]]; cbn; by rewrite Hget. }
    destruct Hcause as [Hext|(eds & Hext & -> & Hcause)].
    { destruct Hname as [->|[->| ->]]; [| |done]; cbn; rewrite Hget; cbn;
        by rewrite Hext. }
    cbn. rewrite Hget. cbn. rewrite Hext. cbn.
    destruct Hcause as [([= ->] & ->)|(a3 & r & Ha3 & Hr & Hcause)]; [done|].
    destruct args' as [|a3' args']; [done|]. injection Ha3 as ->.
    cbn. rewrite Hr. cbn.
    destruct Hcause as [([= ->] & ->)|(a4 & c & Ha4 & Hc & Hcell)]; [done|].
    destruct args' as [|a4' args']; [done|]. injection Ha4 as ->.
    cbn. rewrite Hc. cbn. by rewrite Hcell.
Qed.

End MainRuns.

(** ** The two command lines *)

Section TwoPrograms.
Context `{Lib : SquareLibs} `{Net : !Node}.

Ltac both_run :=
  unfold Earlier.runMain, Earlier.main, runMain, main, io_bind, NewCoreAccessor; cbn;
  repeat (match goal with
          | |- context [grpc_NewClient ?a] => destruct (grpc_NewClient a) eqn:?
          | |- context [String.eqb ?a ?b] => destruct (String.eqb a b) eqn:?
          | |- context [getSignedBlock ?a ?b] =>
              destruct (getSignedBlock a b) as [[[?|] [?|]]|?] eqn:?
          end; cbn).

(** X24: the earlier program and the later one end alike and print the
    same lines on every invocation whose command is neither [eds] nor
    [share]. *)
Theorem programs_agree (args : list string) :
  args !! 1%nat <> Some "eds"%string ->
  args !! 1%nat <> Some "share"%string ->
  Earlier.runMain args = runMain args.
Proof.
  intros Heds Hshare. destruct args as [|ip [|cmd rest]]; [both_run; done..|].
  assert (String.eqb cmd "eds" = false) as He.
  { apply String.eqb_neq. intros ->. by apply Heds. }
  assert (String.eqb cmd "share" = false) as Hs.
  { apply String.eqb_neq. intros ->. by apply Hshare. }
  destruct rest as [|h more].
  all: unfold Earlier.runMain, Earlier.main, runMain, main, io_bind, NewCoreAccessor;
    cbn; rewrite He, Hs; both_run; done.
Qed.

(** X25: in the earlier program [share] does what [block] does, under its
    own name: the two runs end alike and print the same lines after the
    name of the command. *)
Theorem earlier_share_is_block (ip : string) (rest : list string) conn :
  grpc_NewClient ip = inr conn ->
  exists e lines,
    Earlier.runMain (ip :: "share"%string :: rest) = (e, PrintString "share" :: lines) /\
    Earlier.runMain (ip :: "block"%string :: rest) = (e, PrintString "block" :: lines).
Proof.
  intros Hdial.
  unfold Earlier.runMain, Earlier.main, io_bind, NewCoreAccessor. cbn.
  rewrite Hdial. cbn. destruct rest as [|h more]; cbn; [by eexists _, _|].
  destruct (getSignedBlock _ h) as [[block [e|]]|p]; cbn; by eexists _, _.
Qed.

End TwoPrograms.

(** ** The parity of the extended square *)

Section ParityFacts.
Context {Tree : Type}.
Implicit Types (sq : list (list bytes)) (ds eds : ExtendedDataSquare Tree).

Lemma cellAt_setCell_same (n : nat) sq x y v :
  isSquare n sq -> (x < n)%nat -> (y < n)%nat ->
  cellAt (setCell sq x y v) x y = Some v.
Proof.
  intros [Hlen Hrows] Hx Hy. unfold cellAt, setCell.
  rewrite list_lookup_alter_eq.
  destruct (sq !! x) as [row|] eqn:Hrow.
  2:{ apply lookup_ge_None in Hrow. lia. }
  cbn. apply list_lookup_insert_eq.
  pose proof (Forall_lookup_1 _ _ _ _ Hrows Hrow) as Hl. cbn in Hl. lia.
Qed.

Lemma cellAt_writeRow_written (n : nat) newRow : forall sq x y (j : nat),
  isSquare n sq -> (x < n)%nat -> (y + length newRow <= n)%nat ->
  (j < length newRow)%nat ->
  cellAt (writeRow sq x y newRow) x (y + j) = newRow !! j.
Proof.
  induction newRow as [|v rest IH]; intros sq x y j Hsq Hx Hy Hj; cbn in *; [lia|].
  destruct j as [|j].
  - rewrite Nat.add_0_r, cellAt_writeRow by lia.
    apply (cellAt_setCell_same n); [done|lia..].
  - replace (y + S j)%nat with (S y + j)%nat by lia.
    apply IH; [by apply isSquare_setCell|lia..].
Qed.

Lemma cellAt_writeCol_written (n : nat) newCol : forall sq x y (j : nat),
  isSquare n sq -> (y < n)%nat -> (x + length newCol <= n)%nat ->
  (j < length newCol)%nat ->
  cellAt (writeCol sq x y newCol) (x + j) y = newCol !! j.
Proof.
  induction newCol as [|v rest IH]; intros sq x y j Hsq Hy Hx Hj; cbn in *; [lia|].
  destruct j as [|j].
  - rewrite Nat.add_0_r, cellAt_writeCol by lia.
    apply (cellAt_setCell_same n); [done|lia..].
  - replace (x + S j)%nat with (S x + j)%nat by lia.
    apply IH; [by apply isSquare_setCell|lia..].
Qed.

(** The slices the coder reads are cells of the square. *)
Lemma rowSlice_cells (n : nat) ds (r k : nat) :
  isSquare n (squareRow ds) -> (r < n)%nat -> (k <= n)%nat ->
  rowSlice ds r 0 k = rowCells (squareRow ds) r k.
Proof.
  intros [Hlen Hrows] Hr Hk. unfold rowSlice, rowCells, cellAt.
  destruct (squareRow ds !! r) as [row|] eqn:Hrow.
  2:{ apply lookup_ge_None in Hrow. lia. }
  pose proof (Forall_lookup_1 _ _ _ _ Hrows Hrow) as Hl. cbn in Hl. cbn.
  apply list_eq. intros j. rewrite list_lookup_fmap.
  destruct (decide (j < k)%nat) as [Hj|Hj].
  - rewrite lookup_take_lt, lookup_seq_lt by done. cbn.
    destruct (row !! j) eqn:Hc; [done|]. apply lookup_ge_None in Hc. lia.
  - rewrite lookup_take_ge, lookup_seq_ge by lia. done.
Qed.

Lemma colSlice_cells (n : nat) ds (c k : nat) :
  isSquare n (squareRow ds) -> (k <= n)%nat ->
  colSlice ds 0 c k = colCells (squareRow ds) c k.
Proof.
  intros [Hlen Hrows] Hk. unfold colSlice, colCells, cellAt. cbn.
  apply list_eq. intros j. rewrite !list_lookup_fmap.
  destruct (decide (j < k)%nat) as [Hj|Hj].
  - rewrite lookup_take_lt, lookup_seq_lt by done.
    change (drop 0 (squareRow ds)) with (squareRow ds). cbn.
    destruct (squareRow ds !! j) as [row|] eqn:Hrow; [done|].
    apply lookup_ge_None in Hrow. lia.
  - rewrite lookup_take_ge, lookup_seq_ge by lia. done.
Qed.

Lemma rowCells_ext sq sq' (r k : nat) :
  (forall c : nat, (c < k)%nat -> cellAt sq' r c = cellAt sq r c) ->
  rowCells sq' r k = rowCells sq r k.
Proof.
  intros H. unfold rowCells. apply list_fmap_ext. intros j c Hc.
  apply lookup_seq in Hc as [-> Hc]. by rewrite H.
Qed.

Lemma colCells_ext sq sq' (c k : nat) :
  (forall r : nat, (r < k)%nat -> cellAt sq' r c = cellAt sq r c) ->
  colCells sq' c k = colCells sq c k.
Proof.
  intros H. unfold colCells. apply list_fmap_ext. intros j r Hr.
  apply lookup_seq in Hr as [-> Hr]. by rewrite H.
Qed.

(** One row extended: the cells written are the parity of the first [k]
    cells of the row, and no other cell changes. *)
Lemma erasureExtendRow_written codec eds (i : nat) eds' (n k : nat) :
  erasureExtendRow codec eds i = Done (inr eds') ->
  isSquare n (squareRow eds) -> originalDataWidth eds = k ->
  (k + k <= n)%nat -> (i < n)%nat ->
  isSquare n (squareRow eds') /\ originalDataWidth eds' = k /\
  (forall r c : nat, r <> i \/ (c < k)%nat ->
     cellAt (squareRow eds') r c = cellAt (squareRow eds) r c) /\
  exists parity,
    Encode codec (rowCells (squareRow eds) i k) = inr parity /\
    (k <= length parity)%nat /\
    forall c : nat, (c < k)%nat -> cellAt (squareRow eds') i (k + c) = parity !! c.
Proof.
  intros Hrun Hsq Hk Hn Hi. unfold erasureExtendRow in Hrun.
  rewrite Hk, (rowSlice_cells n) in Hrun by (done || lia).
  destruct (Encode codec _) as [msg|parity] eqn:Henc; [done|].
  unfold firstShares in Hrun.
  destruct (Nat.ltb_spec (length parity) k) as [|Hlen]; [done|]. cbn in Hrun.
  unfold setRowSlice in Hrun. destruct (uneven eds _); [done|].
  injection Hrun as <-. cbn.
  split_and!; [by apply isSquare_writeRow|done| |].
  - intros r c Hrc. apply cellAt_writeRow. lia.
  - exists parity. split_and!; [done..|]. intros c Hc.
    rewrite (cellAt_writeRow_written n) by (rewrite ?length_take; (done || lia)).
    by apply lookup_take_lt.
Qed.

(** One column extended, likewise. *)
Lemma erasureExtendCol_written codec eds (i : nat) eds' (n k : nat) :
  erasureExtendCol codec eds i = Done (inr eds') ->
  isSquare n (squareRow eds) -> originalDataWidth eds = k ->
  (k + k <= n)%nat -> (i < n)%nat ->
  isSquare n (squareRow eds') /\ originalDataWidth eds' = k /\
  (forall r c : nat, c <> i \/ (r < k)%nat ->
     cellAt (squareRow eds') r c = cellAt (squareRow eds) r c) /\
  exists parity,
    Encode codec (colCells (squareRow eds) i k) = inr parity /\
    (k <= length parity)%nat /\
    forall r : nat, (r < k)%nat -> cellAt (squareRow eds') (k + r) i = parity !! r.
Proof.
  intros Hrun Hsq Hk Hn Hi. unfold erasureExtendCol in Hrun.
  rewrite Hk, (colSlice_cells n) in Hrun by (done || lia).
  destruct (Encode codec _) as [msg|parity] eqn:Henc; [done|].
  unfold firstShares in Hrun.
  destruct (Nat.ltb_spec (length parity) k) as [|Hlen]; [done|]. cbn in Hrun.
  unfold setColSlice in Hrun. destruct (uneven eds _); [done|].
  injection Hrun as <-. cbn.
  split_and!; [by apply isSquare_writeCol|done| |].
  - intros r c Hrc. apply cellAt_writeCol. lia.
  - exists parity. split_and!; [done..|]. intros r Hr.
    rewrite (cellAt_writeCol_written n) by (rewrite ?length_take; (done || lia)).
    by apply lookup_take_lt.
Qed.

(** A loop of row extensions over distinct rows: every row of the loop
    gets the parity of its first [k] cells as they were before the loop,
    and nothing else changes. *)
Lemma extendRows_written codec (n k : nat) (idxs : list nat) : forall eds eds',
  NoDup idxs -> (forall i, i ∈ idxs -> (i < n)%nat) ->
  extendEach (erasureExtendRow codec) eds idxs = Done (inr eds') ->
  isSquare n (squareRow eds) -> originalDataWidth eds = k -> (k + k <= n)%nat ->
  isSquare n (squareRow eds') /\ originalDataWidth eds' = k /\
  (forall r c : nat, r ∉ idxs \/ (c < k)%nat ->
     cellAt (squareRow eds') r c = cellAt (squareRow eds) r c) /\
  (forall i, i ∈ idxs ->
     exists parity,
       Encode codec (rowCells (squareRow eds) i k) = inr parity /\
       (k <= length parity)%nat /\
       forall c : nat, (c < k)%nat ->
         cellAt (squareRow eds') i (k + c) = parity !! c).
Proof.
  induction idxs as [|i rest IH]; intros eds eds' Hnd Hlt Hrun Hsq Hk Hn.
  - injection Hrun as <-. split_and!; [done..|]. by intros i ?%elem_of_nil.
  - apply list.NoDup_cons in Hnd as [Hi Hnd]. cbn in Hrun.
    destruct (erasureExtendRow codec eds i) as [[msg|eds1]|p] eqn:Hstep;
      cbn in Hrun; [done| |done].
    destruct (erasureExtendRow_written _ _ _ _ n k Hstep Hsq Hk Hn)
      as (Hsq1 & Hk1 & Hframe1 & parity & Henc & Hlen & Hcells);
      [apply Hlt; by left|].
    assert (Hlt' : forall j, j ∈ rest -> (j < n)%nat).
    { intros j Hj. apply Hlt. by right. }
    destruct (IH eds1 eds' Hnd Hlt' Hrun Hsq1 Hk1 Hn) as (Hsq' & Hk' & Hframe & Hrows).
    split_and!; [done..| |].
    + intros r c Hrc. rewrite Hframe, Hframe1; [done| |].
      * destruct Hrc as [Hr|Hc]; [left|by right]. intros ->. apply Hr. by left.
      * destruct Hrc as [Hr|Hc]; [left|by right]. intros Hin. apply Hr. by right.
    + intros j [->|Hj]%elem_of_cons.
      * exists parity. split_and!; [done..|]. intros c Hc.
        rewrite Hframe by (by left). by apply Hcells.
      * destruct (Hrows j Hj) as (parity' & Henc' & Hlen' & Hcells').
        exists parity'. split_and!; [|done..].
        rewrite <- Henc'. f_equal. symmetry. apply rowCells_ext.
        intros c Hc. apply Hframe1. by right.
Qed.

(** The loop over the original quadrant, a row and a column at a time. *)
Lemma extendBoth_written codec (n k : nat) (idxs : list nat) : forall eds eds',
  NoDup idxs -> (forall i, i ∈ idxs -> (i < k)%nat) ->
  extendEach
    (fun eds i =>
       run_bind (erasureExtendRow codec eds i)
         (fun r => match r with
                   | inl msg => Done (inl msg)
                   | inr eds => erasureExtendCol codec eds i
                   end))
    eds idxs = Done (inr eds') ->
  isSquare n (squareRow eds) -> originalDataWidth eds = k -> (k + k <= n)%nat ->
  isSquare n (squareRow eds') /\ originalDataWidth eds' = k /\
  (forall r c : nat,
     r ∉ idxs \/ (c < k)%nat -> c ∉ idxs \/ (r < k)%nat ->
     cellAt (squareRow eds') r c = cellAt (squareRow eds) r c) /\
  (forall i, i ∈ idxs ->
     exists parity,
       Encode codec (rowCells (squareRow eds) i k) = inr parity /\
       (k <= length parity)%nat /\
       forall c : nat, (c < k)%nat ->
         cellAt (squareRow eds') i (k + c) = parity !! c) /\
  (forall i, i ∈ idxs ->
     exists parity,
       Encode codec (colCells (squareRow eds) i k) = inr parity /\
       (k <= length parity)%nat /\
       forall r : nat, (r < k)%nat ->
         cellAt (squareRow eds') (k + r) i = parity !! r).
Proof.
  induction idxs as [|i rest IH]; intros eds eds' Hnd Hlt Hrun Hsq Hk Hn.
  - injection Hrun as <-. split_and!; [done..| |]; by intros i ?%elem_of_nil.
  - apply list.NoDup_cons in Hnd as [Hi Hnd]. cbn in Hrun.
    assert (Hik : (i < k)%nat) by (apply Hlt; by left).
    destruct (erasureExtendRow codec eds i) as [[msg|edsR]|p] eqn:HstepR;
      cbn in Hrun; [done| |done].
    destruct (erasureExtendCol codec edsR i) as [[msg|eds1]|p] eqn:HstepC;
      cbn in Hrun; [done| |done].
    destruct (erasureExtendRow_written _ _ _ _ n k HstepR Hsq Hk Hn)
      as (HsqR & HkR & HframeR & parityR & HencR & HlenR & HcellsR); [lia|].
    destruct (erasureExtendCol_written _ _ _ _ n k HstepC HsqR HkR Hn)
      as (Hsq1 & Hk1 & HframeC & parityC & HencC & HlenC & HcellsC); [lia|].
    assert (Hlt' : forall j, j ∈ rest -> (j < k)%nat).
    { intros j Hj. apply Hlt. by right. }
    destruct (IH eds1 eds' Hnd Hlt' Hrun Hsq1 Hk1 Hn)
      as (Hsq' & Hk' & Hframe & Hrows & Hcols).
    assert (Hrest : forall j, j ∈ rest -> (j < k)%nat /\ j <> i).
    { intros j Hj. split; [apply Hlt; by right|]. by intros ->. }
    split_and!; [done..| | |].
    + intros r c Hr Hc. rewrite Hframe, HframeC, HframeR; [done|..].
      * destruct Hr as [Hr|Hr]; [left|by right]. intros ->. apply Hr. by left.
      * destruct Hc as [Hc|Hc]; [left|by right]. intros ->. apply Hc. by left.
      * destruct Hr as [Hr|Hr]; [left|by right]. intros Hin. apply Hr. by right.
      * destruct Hc as [Hc|Hc]; [left|by right]. intros Hin. apply Hc. by right.
    + intros j [->|Hj]%elem_of_cons.
      * exists parityR. split_and!; [done..|]. intros c Hc.
        rewrite Hframe, HframeC; [by apply HcellsR|left; lia|by left|by right].
      * destruct (Hrows j Hj) as (parity' & Henc' & Hlen' & Hcells').
        exists parity'. split_and!; [|done..].
        rewrite <- Henc'. f_equal. symmetry. apply rowCells_ext.
        intros c Hc. destruct (Hrest j Hj) as [Hjk Hji].
        rewrite HframeC, HframeR; [done|by right|by right].
    + intros j [->|Hj]%elem_of_cons.
      * exists parityC. split_and!; [|done|].
        -- rewrite <- HencC. f_equal. symmetry. apply colCells_ext.
           intros r Hr. apply HframeR. by right.
        -- intros r Hr. rewrite Hframe; [by apply HcellsC|right; lia|by left].
      * destruct (Hcols j Hj) as (parity' & Henc' & Hlen' & Hcells').
        exists parity'. split_and!; [|done..].
        rewrite <- Henc'. f_equal. symmetry. apply colCells_ext.
        intros r Hr. destruct (Hrest j Hj) as [Hjk Hji].
        rewrite HframeC, HframeR; [done|by right|by right].
Qed.

Lemma extendBoth_preserved codec (idxs : list nat) eds eds' :
  extendEach
    (fun eds i =>
       run_bind (erasureExtendRow codec eds i)
         (fun r => match r with
                   | inl msg => Done (inl msg)
                   | inr eds => erasureExtendCol codec eds i
                   end))
    eds idxs = Done (inr eds') ->
  preserved eds eds'.
Proof.
  apply extendEach_preserved. intros e i e' He.
  destruct (erasureExtendRow codec e i) as [[msg|e1]|p] eqn:Hr; cbn in He;
    [done| |done].
  eapply preserved_trans; [by eapply erasureExtendRow_preserved|].
  by eapply erasureExtendCol_preserved.
Qed.

(** The square the coder returns, of width [k + k]: the second half of
    every row is the parity of its first half, and the second half of each
    of the first [k] columns is the parity of its first half. *)
Lemma ComputeExtendedDataSquare_parity data codec (tree : Tree) eds :
  ComputeExtendedDataSquare data codec tree = Done (inr eds) ->
  let k := originalDataWidth eds in
  width eds = (k + k)%nat /\
  (forall r : nat, (r < k + k)%nat ->
     exists parity,
       Encode codec (rowCells (squareRow eds) r k) = inr parity /\
       (k <= length parity)%nat /\
       forall c : nat, (c < k)%nat ->
         cellAt (squareRow eds) r (k + c) = parity !! c) /\
  (forall c : nat, (c < k)%nat ->
     exists parity,
       Encode codec (colCells (squareRow eds) c k) = inr parity /\
       (k <= length parity)%nat /\
       forall r : nat, (r < k)%nat ->
         cellAt (squareRow eds) (k + r) c = parity !! r).
Proof.
  intros Hrun.
  pose proof (ComputeExtendedDataSquare_inv _ _ _ _ Hrun) as (k & _ & Hw & Ho & _).
  rewrite Ho. cbn zeta. split; [done|].
  unfold ComputeExtendedDataSquare in Hrun. destruct (Z.ltb _ _); [done|].
  destruct data as [|d data']; [done|]. set (data := d :: data') in *.
  destruct (ValidateChunkSize codec _) as [msg|]; [done|].
  destruct (newDataSquare data tree (length d)) as [msg|ds] eqn:Hnew; [done|].
  apply newDataSquare_inv in Hnew as (k0 & Hlen & -> & _).
  unfold erasureExtendSquare in Hrun. cbn in Hrun.
  destruct (extendSquare _ _ _) as [msg|eds2] eqn:H2; [done|].
  apply extendSquare_inv in H2 as (Hw2 & _ & Ho2 & _ & Hsq2 & _);
    [|by apply isSquare_rowsOf].
  cbn in Hw2, Ho2, Hsq2.
  destruct (extendEach _ eds2 _) as [[msg|eds3]|p] eqn:H3; cbn in Hrun; [done| |done].
  pose proof (extendBoth_preserved _ _ _ _ H3) as (Hw3 & _ & Ho3' & _).
  rewrite Ho2 in H3.
  apply (extendBoth_written codec (k0 + k0) k0) in H3
    as (Hsq3 & Ho3 & Hframe3 & Hrows3 & Hcols3);
    [|apply NoDup_seq|by intros i [_ Hi]%elem_of_seq|done..].
  rewrite Ho3, Hw3, Hw2 in Hrun.
  replace (k0 + k0 - k0)%nat with k0 in Hrun by lia.
  pose proof (extendEach_preserved _ _
                (fun e i e' => erasureExtendRow_preserved codec e i e')
                _ _ Hrun) as (_ & _ & Ho4' & _).
  apply (extendRows_written codec (k0 + k0) k0) in Hrun
    as (Hsq4 & Ho4 & Hframe4 & Hrows4);
    [|apply NoDup_seq|intros i [_ Hi]%elem_of_seq; lia|done..].
  assert (k = k0) as -> by congruence.
  split.
  - intros r Hr. destruct (decide (r < k0)%nat) as [Hlow|Hhigh].
    + destruct (Hrows3 r) as (parity & Henc & Hplen & Hcells);
        [apply elem_of_seq; lia|].
      exists parity. split_and!; [|done|].
      * rewrite <- Henc. f_equal. apply rowCells_ext. intros c Hc.
        rewrite Hframe4, Hframe3; [done|by right..].
      * intros c Hc. rewrite Hframe4; [by apply Hcells|].
        left. intros [Hin _]%elem_of_seq. lia.
    + destruct (Hrows4 r) as (parity & Henc & Hplen & Hcells);
        [apply elem_of_seq; lia|].
      exists parity. split_and!; [|done..].
      rewrite <- Henc. f_equal. apply rowCells_ext. intros c Hc.
      apply Hframe4. by right.
  - intros c Hc. destruct (Hcols3 c) as (parity & Henc & Hplen & Hcells);
      [apply elem_of_seq; lia|].
    exists parity. split_and!; [|done|].
    + rewrite <- Henc. f_equal. apply colCells_ext. intros r Hr.
      rewrite Hframe4, Hframe3; [done|by right..].
    + intros r Hr. rewrite Hframe4; [by apply Hcells|by right].
Qed.

End ParityFacts.

Section ParityClaims.
Context `{Lib : SquareLibs}.

(** X27: in a square returned by [extendShares], of width [2 k], the
    second half of every row is the parity that the codec computes from
    the first half of that row: the first [k] shares of what [Encode]
    returns on it, in order. *)
Theorem extendShares_rows_are_encoded (s : list bytes) options eds (r : nat) :
  result (extendShares s options) = Done (Some eds, None) ->
  (r < width eds)%nat ->
  let k := originalDataWidth eds in
  width eds = (2 * k)%nat /\
  exists parity,
    Encode DefaultCodec (rowCells (squareRow eds) r k) = inr parity /\
    (k <= length parity)%nat /\
    forall c : nat, (c < k)%nat -> cellAt (squareRow eds) r (k + c) = parity !! c.
Proof.
  intros Hrun Hr. apply extendShares_square in Hrun.
  destruct (ComputeExtendedDataSquare_parity _ _ _ _ Hrun) as (Hw & Hrows & _).
  cbn zeta. split; [lia|]. apply Hrows. lia.
Qed.

(** X28: in such a square the second half of each of the first [k]
    columns is the parity that the codec computes from the first half of
    that column, which is a column of the data. *)
Theorem extendShares_columns_are_encoded (s : list bytes) options eds (c : nat) :
  result (extendShares s options) = Done (Some eds, None) ->
  (c < originalDataWidth eds)%nat ->
  let k := originalDataWidth eds in
  exists parity,
    Encode DefaultCodec (colCells (squareRow eds) c k) = inr parity /\
    (k <= length parity)%nat /\
    forall r : nat, (r < k)%nat -> cellAt (squareRow eds) (k + r) c = parity !! r.
Proof.
  intros Hrun Hc. apply extendShares_square in Hrun.
  destruct (ComputeExtendedDataSquare_parity _ _ _ _ Hrun) as (_ & _ & Hcols).
  by apply Hcols.
Qed.

End ParityClaims.

(** ** The further facts on the samples *)

Section MoreSampleRuns.
#[local] Existing Instance Sample.decoders.
#[local] Existing Instance SampleNode.libs.
#[local] Existing Instance SampleNode.node.

Lemma partsToBlock_index_beyond_witness :
  partsToBlock [Some (mkPart 0 [Byte.x0a]); Some (mkPart 5 [Byte.x0b])] =
    Done (None, Some ErrPartSetUnexpectedIndex).
Proof.
  apply (partsToBlock_index_beyond [mkPart 0 [Byte.x0a]] [] (mkPart 5 [Byte.x0b])).
  - reflexivity.
  - apply NoDup_singleton.
  - intros q ->%list_elem_of_singleton. cbn. lia.
  - cbn. lia.
Defined.

Lemma partsToBlock_index_twice_witness :
  partsToBlock [Some (mkPart 0 [Byte.x0a]); Some (mkPart 0 [Byte.x0b])] =
    Done (None, None).
Proof.
  apply (partsToBlock_index_twice [mkPart 0 [Byte.x0a]] [] (mkPart 0 [Byte.x0b])).
  - reflexivity.
  - apply NoDup_singleton.
  - intros q ->%list_elem_of_singleton. cbn. lia.
  - by apply list_elem_of_singleton.
Defined.

Lemma partsToBlock_bz_only_if_witness :
  exists ps,
    [Some (mkPart 1 [Byte.x0b]); Some (mkPart 0 [Byte.x0a])] = Some <$> ps /\
    ps <> [] /\
    Index <$> ps ≡ₚ seqZ 0 (Z.of_nat (length ps)).
Proof.
  apply (partsToBlock_bz_only_if
           [Some (mkPart 1 [Byte.x0b]); Some (mkPart 0 [Byte.x0a])]
           [Byte.x0a; Byte.x0b]).
  - reflexivity.
  - repeat constructor; intros p [= <-]; cbn; lia.
  - reflexivity.
Defined.

Lemma partsToBlock_outcomes_witness :
  partsToBlock (Some <$> [mkPart 1 [Byte.x0b]; mkPart 0 [Byte.x0a]]) =
    Done (None, Some ErrPartSetUnexpectedIndex) \/
  partsToBlock (Some <$> [mkPart 1 [Byte.x0b]; mkPart 0 [Byte.x0a]]) =
    Done (None, None) \/
  exists qs,
    [mkPart 1 [Byte.x0b]; mkPart 0 [Byte.x0a]] ≡ₚ qs /\
    Index <$> qs = seqZ 0 2 /\
    partsToBlock (Some <$> [mkPart 1 [Byte.x0b]; mkPart 0 [Byte.x0a]]) =
      Done (decodeBlock (concat (Bytes <$> qs))).
Proof.
  apply (partsToBlock_outcomes [mkPart 1 [Byte.x0b]; mkPart 0 [Byte.x0a]]).
  - discriminate.
  - reflexivity.
  - repeat constructor; cbn; lia.
Defined.

Lemma receiveBlockByHeight_first_metadata_witness :
  fst (receiveBlockByHeight
         {| pending := [Sample.firstFragment 0 [Byte.x03] false;
                        Sample.fragment 1 [Byte.x0a] true];
            closing := EOF |}) =
  fst (receiveBlockByHeight
         {| pending := [Sample.firstFragment 0 [Byte.x03] false;
                        Sample.firstFragment 1 [Byte.x0a] true];
            closing := EOF |}).
Proof.
  apply (receiveBlockByHeight_first_metadata EOF
           (Sample.firstFragment 0 [Byte.x03] false)
           [Sample.fragment 1 [Byte.x0a] true]
           [Sample.firstFragment 1 [Byte.x0a] true]).
  repeat constructor.
Defined.

Lemma receiveBlockByHeight_round_trip_witness :
  receiveBlockByHeight
    {| pending := [Sample.firstFragment 0 [Byte.x03; Byte.x0a] false;
                   Sample.fragment 1 [Byte.x0b] true;
                   Sample.fragment 2 [Byte.x0c] true];
       closing := EOF |} =
    (signBlock [Byte.x0c] [Byte.x0f]
       (Done (decodeBlock (concat [[Byte.x03; Byte.x0a]; [Byte.x0b]]))),
     {| pending := [Sample.fragment 2 [Byte.x0c] true]; closing := EOF |}).
Proof.
  apply (receiveBlockByHeight_round_trip
           {| pending := [Sample.firstFragment 0 [Byte.x03; Byte.x0a] false;
                          Sample.fragment 1 [Byte.x0b] true;
                          Sample.fragment 2 [Byte.x0c] true];
              closing := EOF |}
           (Sample.firstFragment 0 [Byte.x03; Byte.x0a] false)
           [Sample.fragment 1 [Byte.x0b] true; Sample.fragment 2 [Byte.x0c] true]
           [Byte.x0c] [Byte.x0f]
           [Sample.firstFragment 0 [Byte.x03; Byte.x0a] false;
            Sample.fragment 1 [Byte.x0b] true]
           [Sample.fragment 2 [Byte.x0c] true]
           [[Byte.x03; Byte.x0a]; [Byte.x0b]]); reflexivity.
Defined.

Lemma receiveBlockByHeight_index_twice_witness :
  fst (receiveBlockByHeight
         {| pending := [Sample.firstFragment 0 [Byte.x0a] false;
                        Sample.fragment 0 [Byte.x0b] true];
            closing := EOF |}) = Panicked NilDereference.
Proof.
  apply (receiveBlockByHeight_index_twice
           {| pending := [Sample.firstFragment 0 [Byte.x0a] false;
                          Sample.fragment 0 [Byte.x0b] true];
              closing := EOF |}
           (Sample.firstFragment 0 [Byte.x0a] false)
           [Sample.fragment 0 [Byte.x0b] true]
           [Byte.x0c] [Byte.x0f]
           [Sample.firstFragment 0 [Byte.x0a] false; Sample.fragment 0 [Byte.x0b] true]
           []
           [mkPart 0 [Byte.x0a]] [] (mkPart 0 [Byte.x0b])).
  - reflexivity.
  - reflexivity.
  - reflexivity.
  - reflexivity.
  - reflexivity.
  - reflexivity.
  - apply NoDup_singleton.
  - intros q ->%list_elem_of_singleton. cbn. lia.
  - by apply list_elem_of_singleton.
Defined.

Lemma receiveBlockByHeight_missing_part_witness :
  fst (receiveBlockByHeight
         {| pending := [Sample.firstFragment 0 [Byte.x0a] false;
                        {| BlockPart := None; resp_Commit := None;
                           resp_ValidatorSet := None; IsLast := true |}];
            closing := EOF |}) = Panicked NilDereference.
Proof.
  apply (receiveBlockByHeight_missing_part
           {| pending := [Sample.firstFragment 0 [Byte.x0a] false;
                          {| BlockPart := None; resp_Commit := None;
                             resp_ValidatorSet := None; IsLast := true |}];
              closing := EOF |}
           (Sample.firstFragment 0 [Byte.x0a] false)
           [{| BlockPart := None; resp_Commit := None;
               resp_ValidatorSet := None; IsLast := true |}]
           [Byte.x0c] [Byte.x0f]
           [Sample.firstFragment 0 [Byte.x0a] false;
            {| BlockPart := None; resp_Commit := None;
               resp_ValidatorSet := None; IsLast := true |}]
           []
           [mkPart 0 [Byte.x0a]] []).
  - reflexivity.
  - reflexivity.
  - reflexivity.
  - reflexivity.
  - reflexivity.
  - reflexivity.
  - apply NoDup_singleton.
  - intros q ->%list_elem_of_singleton. cbn. lia.
Defined.

Lemma extendShares_sizes_witness :
  exists j : nat,
    Z.of_nat (length SampleNode.fourShares) = 4 ^ Z.of_nat j /\
    Z.of_nat (originalDataWidth SampleNode.extended4) = 2 ^ Z.of_nat j /\
    Z.of_nat (width SampleNode.extended4) = 2 ^ (Z.of_nat j + 1).
Proof.
  apply (extendShares_sizes (Lib := SampleNode.libs) SampleNode.fourShares []
           SampleNode.extended4).
  reflexivity.
Defined.

Lemma extendShares_accepts_witness :
  Z.of_nat (length SampleNode.fourShares) <= MaxChunks DefaultCodec /\
  ValidateChunkSize DefaultCodec (Z.of_nat (chunkSize SampleNode.extended4)) = None /\
  Forall (fun d => length d = chunkSize SampleNode.extended4) SampleNode.fourShares.
Proof.
  apply (extendShares_accepts (Lib := SampleNode.libs) SampleNode.fourShares []
           SampleNode.extended4).
  reflexivity.
Defined.


Lemma GetCell_returns_stored_share_witness :
  exists share,
    cellAt (squareRow SampleNode.extended4) (Z.to_nat 3) (Z.to_nat 1) = Some share /\
    length share = chunkSize SampleNode.extended4 /\
    Forall (fun d => length d = length share) SampleNode.fourShares /\
    GetCell SampleNode.extended4 3 1 = Done share.
Proof.
  apply (GetCell_returns_stored_share (Lib := SampleNode.libs)
           SampleNode.fourShares [] SampleNode.extended4 3 1).
  - reflexivity.
  - cbn. lia.
  - cbn. lia.
Defined.

Lemma extendShares_rows_are_encoded_witness :
  width SampleNode.extended4 = (2 * 2)%nat /\
  exists parity,
    Encode DefaultCodec (rowCells (squareRow SampleNode.extended4) 3 2) = inr parity /\
    (2 <= length parity)%nat /\
    forall c : nat, (c < 2)%nat ->
      cellAt (squareRow SampleNode.extended4) 3 (2 + c) = parity !! c.
Proof.
  apply (extendShares_rows_are_encoded (Lib := SampleNode.libs)
           SampleNode.fourShares [] SampleNode.extended4 3).
  - reflexivity.
  - cbn. lia.
Defined.

Lemma extendShares_columns_are_encoded_witness :
  exists parity,
    Encode DefaultCodec (colCells (squareRow SampleNode.extended4) 1 2) = inr parity /\
    (2 <= length parity)%nat /\
    forall r : nat, (r < 2)%nat ->
      cellAt (squareRow SampleNode.extended4) (2 + r) 1 = parity !! r.
Proof.
  apply (extendShares_columns_are_encoded (Lib := SampleNode.libs)
           SampleNode.fourShares [] SampleNode.extended4 1).
  - reflexivity.
  - cbn. lia.
Defined.

Lemma main_exit_discipline_witness :
  (forall code, Exit 1 = Exit code -> code = 0 \/ code = 1) /\
  (Exit 1 = Exit 1 ->
   exists pre err, [PrintString "eds"; PrintError EOF] = pre ++ [PrintError err]) /\
  (forall err, PrintError err ∈ [PrintString "eds"; PrintError EOF] ->
     Exit 1 = Exit 1 /\
     exists pre,
       [PrintString "eds"; PrintError EOF] = pre ++ [PrintError err] /\
       PrintError err ∉ pre).
Proof.
  apply (main_exit_discipline (Lib := SampleNode.libs) (Net := SampleNode.node)
           ["node"; "eds"; "3"]%string (Exit 1) [PrintString "eds"; PrintError EOF]).
  reflexivity.
Defined.

Lemma main_missing_height_witness :
  runMain ["node"; "eds"]%string =
    (Crash (IndexOutOfRange 2 2), [PrintString "eds"]).
Proof.
  apply (main_missing_height (Lib := SampleNode.libs) (Net := SampleNode.node)
           "node" "eds" tt).
  - reflexivity.
  - by left.
Defined.

Lemma main_share_missing_index_witness :
  runMain ["node"; "share"; "1"]%string =
    (Crash (IndexOutOfRange 3 3), [PrintString "share"]) /\
  forall a3 r,
    Atoi a3 = inr r ->
    runMain ["node"; "share"; "1"; a3]%string =
      (Crash (IndexOutOfRange 4 4), [PrintString "share"]).
Proof.
  apply (main_share_missing_index (Lib := SampleNode.libs) (Net := SampleNode.node)
           "node" "1" tt SampleNode.block1 (Some SampleNode.extended4));
    reflexivity.
Defined.

Lemma main_share_negative_row_witness :
  runMain ["node"; "share"; "1"; "-1"; "0"]%string =
    (Crash (IndexOutOfRange (-1 + 2 ^ 64)
              (Z.of_nat (length (squareRow SampleNode.extended4)))),
     [PrintString "share"]).
Proof.
  apply (main_share_negative_row (Lib := SampleNode.libs) (Net := SampleNode.node)
           "node" "1" "-1" "0" [] tt SampleNode.block1 SampleNode.extended4 (-1) 0).
  - reflexivity.
  - reflexivity.
  - reflexivity.
  - reflexivity.
  - reflexivity.
  - lia.
  - cbn. lia.
Defined.

Lemma main_share_empty_block_witness :
  runMain ["node"; "share"; "2"; "1"; "0"]%string =
    match GetCell EmptyEDS (uint64 1) (uint64 0) with
    | Done cell => (Exit 0, [PrintString "share"; PrintShare cell])
    | Panicked p => (Crash p, [PrintString "share"])
    end.
Proof.
  apply (main_share_empty_block (Lib := SampleNode.libs) (Net := SampleNode.node)
           "node" "2" "1" "0" [] tt SampleBlocks.block2 1 0);
    reflexivity.
Defined.

Lemma main_eds_empty_block_witness :
  runMain ["node"; "eds"; "2"]%string =
    match NewDataAvailabilityHeader EmptyEDS with
    | inl msg => (Exit 1, [PrintString "eds"; PrintError (ErrDependency msg)])
    | inr dah =>
        (Exit 0,
         [PrintString "eds";
          PrintExtendedHeader (Some (SampleBlocks.header2 dah))])
    end.
Proof.
  apply (main_eds_empty_block (Lib := SampleNode.libs) (Net := SampleNode.node)
           "node" "2" [] tt SampleBlocks.block2);
    reflexivity.
Defined.

Lemma main_ignores_further_arguments_witness :
  runMain ["node"; "block"; "1"; "0"]%string = runMain ["node"; "block"; "1"]%string.
Proof.
  apply (proj1 (main_ignores_further_arguments (Lib := SampleNode.libs)
                  (Net := SampleNode.node) "node" "block" "1" ["0"%string])).
  discriminate.
Defined.

Lemma main_crash_causes_witness :
  runMain ["node"; "share"; "1"; "9"; "0"]%string =
    (Crash (IndexOutOfRange 9 4), [PrintString "share"]).
Proof.
  apply (proj2 (main_crash_causes (Lib := SampleNode.libs) (Net := SampleNode.node)
                  ["node"; "share"; "1"; "9"; "0"]%string (IndexOutOfRange 9 4)
                  [PrintString "share"])).
  exists "node"%string, tt. split; [reflexivity|]. split; [reflexivity|].
  right. exists "share"%string. split; [reflexivity|]. split; [reflexivity|].
  split; [right; left; reflexivity|].
  right. exists "1"%string. split; [reflexivity|].
  right. exists SampleNode.block1. split; [reflexivity|]. split; [discriminate|].
  right. exists SampleNode.extended4. split; [reflexivity|]. split; [reflexivity|].
  right. exists "9"%string, 9. split; [reflexivity|]. split; [reflexivity|].
  right. exists "0"%string, 0. split; [reflexivity|]. split; reflexivity.
Defined.

Lemma programs_agree_witness :
  Earlier.runMain ["node"; "block"; "1"]%string = runMain ["node"; "block"; "1"]%string.
Proof.
  apply (programs_agree (Lib := SampleNode.libs) (Net := SampleNode.node)
           ["node"; "block"; "1"]%string); discriminate.
Defined.

Lemma earlier_share_is_block_witness :
  exists e lines,
    Earlier.runMain ["node"; "share"; "1"]%string = (e, PrintString "share" :: lines) /\
    Earlier.runMain ["node"; "block"; "1"]%string = (e, PrintString "block" :: lines).
Proof.
  apply (earlier_share_is_block (Lib := SampleNode.libs) (Net := SampleNode.node)
           "node" ["1"%string] tt).
  reflexivity.
Defined.

End MoreSampleRuns.
